(** * minitorch: strided tensor indexing and the scalar function protocol

    A shallow embedding of [minitorch/tensor_data.py] and
    [minitorch/scalar_functions.py].

    Conventions of the embedding.
    - Python integers are [Z]; [%] and [//] on them are floor modulo and
      floor division, which is what [Z.modulo] and [Z.div] compute for a
      non-zero divisor.
    - A one dimensional numpy integer array or a tuple of ints is a
      [list Z].  Entries written by the indexing functions are smaller in
      absolute value than the shape entries they are reduced by, and
      ordinals, sizes and positions are offsets into a buffer in memory, far
      below the 63 bits of a numpy integer: no fixed width wrap-around
      arises and the embedding keeps [Z].
    - A Python exception is a constructor of [exn]; a function that may
      raise returns a [result].  The text of a message is kept as the
      values the f-string interpolates.
    - numpy buffers are mutable and shared: they live in a [heap] and a
      [TensorData] holds a location.
    - Python floats are the binary64 numbers of [PrimFloat]. *)

From Stdlib Require Import ZArith List Lia Bool Arith Permutation Floats.
From Stdlib Require Import Sorted.
Import ListNotations.
Local Open Scope Z_scope.

(** ** Exceptions and results *)

(** The values interpolated in the messages of [IndexingError]. *)
Inductive indexing_msg : Type :=
| SameLengthAsStrides (index strides : list Z)
    (* "Index {index} must have same length as strides {strides}" *)
| CannotBroadcast (shape1 shape2 : list Z)
    (* "Cannot broadcast shapes {shape1} and {shape2}" *)
| LenOfStridesMustMatch (strides shape : list Z)
    (* "Len of strides {strides} must match {shape}." *)
| MustBeSizeOf (aindex shape : list Z)
    (* "Index {aindex} must be size of {self.shape}." *)
| OutOfRange (aindex shape : list Z)
    (* "Index {aindex} out of range {self.shape}." *)
| NegativeIndexing (aindex : list Z).
    (* "Negative indexing for {aindex} not supported." *)

(** The values interpolated in the messages of the [ValueError]s. *)
Inductive value_msg : Type :=
| TooFewDimensions
    (* "big_shape must have at least as many dimensions as shape" *)
| NotBroadcastCompatible (big_shape shape : list Z)
    (* "Shapes {big_shape} and {shape} are not broadcast-compatible." *)
| UnpackMismatch.
    (* unpacking a tuple into the wrong number of names *)

Inductive exn : Type :=
| IndexingError (m : indexing_msg)   (* class IndexingError(RuntimeError) *)
| ValueError (m : value_msg)
| TypeError
| IndexError
| OverflowError
| AssertionError.

Inductive result (A : Type) : Type :=
| Ok (a : A)
| Raise (e : exn).
Arguments Ok {A} a.
Arguments Raise {A} e.

Definition bind {A B : Type} (r : result A) (k : A -> result B) : result B :=
  match r with
  | Ok a => k a
  | Raise e => Raise e
  end.

Notation "x <- r ;; k" := (bind r (fun x => k))
  (at level 61, r at next level, right associativity).

(** [isinstance(e, IndexingError)]. *)
Definition is_IndexingError {A : Type} (r : result A) : bool :=
  match r with
  | Raise (IndexingError _) => true
  | _ => false
  end.

(** ** Python and numpy primitives *)

(** [range(n)] as the list [0, ..., n-1]; empty when [n <= 0]. *)
Definition range (n : Z) : list Z := map Z.of_nat (seq 0 (Z.to_nat n)).

(** [a[i] = v] on a one dimensional array with [0 <= i]: numpy raises
    [IndexError] when [i] is not below the length. *)
Fixpoint array_set (a : list Z) (i : nat) (v : Z) : result (list Z) :=
  match a, i with
  | [], _ => Raise IndexError
  | _ :: tl, O => Ok (v :: tl)
  | x :: tl, S j => tl' <- array_set tl j v ;; Ok (x :: tl')
  end.

(** [a[i]] on a one dimensional array with [0 <= i]. *)
Definition array_get (a : list Z) (i : nat) : result Z :=
  match nth_error a i with
  | Some v => Ok v
  | None => Raise IndexError
  end.

(** [%] and [//] with a numpy integer divisor: a zero divisor yields [0]
    (with a warning) instead of raising. *)
Definition np_mod (a b : Z) : Z := if b =? 0 then 0 else a mod b.
Definition np_floordiv (a b : Z) : Z := if b =? 0 then 0 else a / b.

(** Modelled from the spec: [operators.prod], imported by
    [tensor_data.py] and not part of the sources at hand; the spec gives the
    size of a tensor as the product of its shape, 1 for the empty shape. *)
Definition prod (shape : list Z) : Z := fold_right Z.mul 1 shape.

(** ** Indexing engine *)

(** A value passed where the code takes [len] of an index: [array(i)] of a
    bare int is a zero dimensional array, [array(t)] of a tuple or a tuple
    itself is one dimensional. *)
Inductive ndarray : Type :=
| Arr0 (x : Z)
| Arr1 (xs : list Z).

(** [len(a)]: a zero dimensional array is unsized. *)
Definition py_len (a : ndarray) : result nat :=
  match a with
  | Arr0 _ => Raise TypeError
  | Arr1 xs => Ok (length xs)
  end.

(** [sum(i * s for i, s in zip(index, strides))].  The products and the
    sum are those of the integers; numpy computes them in [int64], so the
    code returns this number whenever it fits an [int64], as the positions
    of a buffer in memory do, and the number wrapped to 64 bits beyond. *)
Definition dot (index strides : list Z) : Z :=
  fold_left (fun acc p => acc + fst p * snd p) (combine index strides) 0.

Definition index_to_position (index : ndarray) (strides : list Z) : result Z :=
  n <- py_len index ;;
  match index with
  | Arr0 _ => Raise TypeError
  | Arr1 xs =>
      if negb (Nat.eqb n (length strides))
      then Raise (IndexingError (SameLengthAsStrides xs strides))
      else Ok (dot xs strides)
  end.

(** The loop of [to_index]: [to_index_loop n] runs the iterations
    [i = n-1, ..., 0] of [for i in range(len(shape) - 1, -1, -1)].  The
    ordinal is taken within the integer type of [shape], as the ordinals
    below the size of a tensor are; for an ordinal beyond it numpy raises
    [OverflowError] at the first [%], a case the loop here does not
    cover. *)
Fixpoint to_index_loop (n : nat) (ordinal : Z) (shape out_index : list Z)
  : result (list Z) :=
  match n with
  | O => Ok out_index
  | S i =>
      let s := nth i shape 0 in
      out_index' <- array_set out_index i (np_mod ordinal s) ;;
      to_index_loop i (np_floordiv ordinal s) shape out_index'
  end.

(** [to_index(ordinal, shape, out_index)]; the result is the new content of
    the array [out_index]. *)
Definition to_index (ordinal : Z) (shape out_index : list Z) : result (list Z) :=
  to_index_loop (length shape) ordinal shape out_index.

(** The spec's description of [to_index], dimensions taken from last to
    first: [unravel] consumes the reversed shape and produces the reversed
    coordinate. *)
Fixpoint unravel (rev_shape : list Z) (ordinal : Z) : list Z :=
  match rev_shape with
  | [] => []
  | s :: r => (ordinal mod s) :: unravel r (ordinal / s)
  end.

Definition to_index_spec (ordinal : Z) (shape : list Z) : list Z :=
  rev (unravel (rev shape) ordinal).

(** The mixed radix value of a reversed coordinate. *)
Fixpoint ravel (rev_shape digits : list Z) : Z :=
  match rev_shape, digits with
  | s :: r, d :: ds => d + s * ravel r ds
  | _, _ => 0
  end.

(** A coordinate within the bounds of a shape. *)
Definition in_bounds (index shape : list Z) : Prop :=
  Forall2 (fun i s => 0 <= i < s) index shape.

Definition all_positive (shape : list Z) : Prop := Forall (fun s => 0 < s) shape.

(** The loop of [strides_from_shape] over [reversed(shape)]. *)
Fixpoint strides_loop (rshape layout : list Z) (offset : Z) : list Z :=
  match rshape with
  | [] => layout
  | s :: r => strides_loop r (layout ++ [s * offset]) (s * offset)
  end.

(** [tuple(reversed(layout[:-1]))]. *)
Definition strides_from_shape (shape : list Z) : list Z :=
  rev (removelast (strides_loop (rev shape) [1] 1)).

(** The loop of [shape_broadcast] over [zip(shape1, shape2)]; [shape1] and
    [shape2] are the padded shapes, which the message interpolates. *)
Fixpoint shape_broadcast_loop (pairs : list (Z * Z)) (shape1 shape2 acc : list Z)
  : result (list Z) :=
  match pairs with
  | [] => Ok acc
  | (dim1, dim2) :: rest =>
      if negb (dim1 =? dim2) && negb ((dim1 =? 1) || (dim2 =? 1))
      then Raise (IndexingError (CannotBroadcast shape1 shape2))
      else shape_broadcast_loop rest shape1 shape2 (acc ++ [Z.max dim1 dim2])
  end.

(** The padding step of [shape_broadcast]. *)
Definition pad_shapes (shape1 shape2 : list Z) : list Z * list Z :=
  let number_of_dims1 := length shape1 in
  let number_of_dims2 := length shape2 in
  if negb (Nat.eqb number_of_dims1 number_of_dims2) then
    if Nat.ltb number_of_dims1 number_of_dims2
    then (repeat 1 (number_of_dims2 - number_of_dims1) ++ shape1, shape2)
    else (shape1, repeat 1 (number_of_dims1 - number_of_dims2) ++ shape2)
  else (shape1, shape2).

Definition shape_broadcast (shape1 shape2 : list Z) : result (list Z) :=
  let '(shape1, shape2) := pad_shapes shape1 shape2 in
  shape_broadcast_loop (combine shape1 shape2) shape1 shape2 [].

(** The compatibility loop of [broadcast_index] over
    [range(len(big_shape))]; [orig_big] and [orig_shape] are the shapes the
    message interpolates. *)
Fixpoint check_compatible (padded_shape big_shape : list Z) (orig_big orig_shape : list Z)
  : result unit :=
  match padded_shape, big_shape with
  | p :: ps, b :: bs =>
      if negb (p =? 1) && negb (p =? b)
      then Raise (ValueError (NotBroadcastCompatible orig_big orig_shape))
      else check_compatible ps bs orig_big orig_shape
  | _, _ => Ok tt
  end.

(** The mapping loop of [broadcast_index]: the iterations
    [dim = len(shape) - k, ..., len(shape) - 1]. *)
Fixpoint map_indices (k : nat) (dim pad_amount : nat)
  (padded_shape big_index out_index : list Z) : result (list Z) :=
  match k with
  | O => Ok out_index
  | S k' =>
      let big_dim := (dim + pad_amount)%nat in
      out_index' <-
        (if 1 <? nth big_dim padded_shape 0
         then v <- array_get big_index big_dim ;; array_set out_index dim v
         else array_set out_index dim 0) ;;
      map_indices k' (S dim) pad_amount padded_shape big_index out_index'
  end.

(** [broadcast_index(big_index, big_shape, shape, out_index)]; the result
    is the new content of [out_index].  The four [print] calls at its head
    write to standard output only and are left out. *)
Definition broadcast_index (big_index big_shape shape out_index : list Z)
  : result (list Z) :=
  if Nat.eqb (length shape) 0 then Ok out_index
  else
    if Nat.ltb (length big_shape) (length shape)
    then Raise (ValueError TooFewDimensions)
    else
      let pad_amount := (length big_shape - length shape)%nat in
      let padded_shape := repeat 1 pad_amount ++ shape in
      _ <- check_compatible padded_shape big_shape big_shape shape ;;
      map_indices (length shape) 0 pad_amount padded_shape big_index out_index.

(** ** Tensor data store *)

(** numpy buffers: a location names a buffer, several [TensorData] may hold
    the same location. *)
Definition loc : Type := nat.

Record heap : Type := mkHeap {
  cells : loc -> list float;
  next_loc : loc
}.

(** [array(storage, dtype=float64)] of a sequence: a new buffer. *)
Definition heap_alloc (h : heap) (vals : list float) : loc * heap :=
  (next_loc h,
   mkHeap (fun l => if Nat.eqb l (next_loc h) then vals else cells h l)
          (S (next_loc h))).

(** The position numpy accesses for [a[pos]] on a buffer of [len] entries:
    a negative [pos] counts from the end. *)
Definition np_position (len : nat) (pos : Z) : result nat :=
  if (0 <=? pos) && (pos <? Z.of_nat len) then Ok (Z.to_nat pos)
  else if (- Z.of_nat len <=? pos) && (pos <? 0)
       then Ok (Z.to_nat (pos + Z.of_nat len))
       else Raise IndexError.

Fixpoint list_update {A : Type} (l : list A) (i : nat) (v : A) : list A :=
  match l, i with
  | [], _ => []
  | _ :: tl, O => v :: tl
  | x :: tl, S j => x :: list_update tl j v
  end.

Definition heap_read (h : heap) (l : loc) (pos : Z) : result float :=
  i <- np_position (length (cells h l)) pos ;;
  Ok (nth i (cells h l) 0%float).

Definition heap_write (h : heap) (l : loc) (pos : Z) (v : float) : result heap :=
  i <- np_position (length (cells h l)) pos ;;
  Ok (mkHeap (fun l' => if Nat.eqb l' l then list_update (cells h l) i v
                        else cells h l')
             (next_loc h)).

(** The [storage] argument of the constructor: an array that exists already
    or a sequence of floats. *)
Inductive storage_arg : Type :=
| StorageArray (l : loc)
| StorageSeq (vals : list float).

(** The [index] argument of [TensorData.index]: an int or a sequence. *)
Inductive user_index : Type :=
| IndexInt (i : Z)
| IndexSeq (xs : list Z).

(** [array(index)]. *)
Definition array (index : user_index) : ndarray :=
  match index with
  | IndexInt i => Arr0 i
  | IndexSeq xs => Arr1 xs
  end.

(** Python's [sorted] on a sequence of ints. *)
Fixpoint insert_sorted (x : Z) (l : list Z) : list Z :=
  match l with
  | [] => [x]
  | y :: tl => if x <=? y then x :: l else y :: insert_sorted x tl
  end.

Definition sorted (l : list Z) : list Z := fold_right insert_sorted [] l.

(** [==] on sequences of ints. *)
Fixpoint list_eqb (a b : list Z) : bool :=
  match a, b with
  | [], [] => true
  | x :: a', y :: b' => (x =? y) && list_eqb a' b'
  | _, _ => false
  end.

Module TensorData.

Record t : Type := mk {
  _storage : loc;
  _strides : list Z;
  _shape : list Z;
  strides : list Z;
  dims : nat;
  size : Z;
  shape : list Z
}.

(** [TensorData(storage, shape, strides)].  The two [isinstance]
    assertions on tuples hold by typing. *)
Definition init (storage : storage_arg) (shape : list Z)
  (strides : option (list Z)) (h : heap) : result (t * heap) :=
  let '(l, h) :=
    match storage with
    | StorageArray l => (l, h)
    | StorageSeq vals => heap_alloc h vals
    end in
  let strides :=
    match strides with
    | None => strides_from_shape shape
    | Some s => s
    end in
  if negb (Nat.eqb (length strides) (length shape))
  then Raise (IndexingError (LenOfStridesMustMatch strides shape))
  else
    let size := prod shape in
    if Z.of_nat (length (cells h l)) =? size
    then Ok (mk l strides shape strides (length strides) size shape, h)
    else Raise AssertionError.

(** The bounds loop of [index] over [enumerate(aindex)], from
    position [i] on. *)
Fixpoint check_bounds (rest : list Z) (i : nat) (aindex shape : list Z)
  : result unit :=
  match rest with
  | [] => Ok tt
  | ind :: tl =>
      if ind >=? nth i shape 0
      then Raise (IndexingError (OutOfRange aindex shape))
      else if ind <? 0
           then Raise (IndexingError (NegativeIndexing aindex))
           else check_bounds tl (S i) aindex shape
  end.

Definition index (self : t) (index : user_index) : result Z :=
  let aindex :=
    match index with
    | IndexInt i => [i]
    | IndexSeq xs => xs
    end in
  (* Pretend 0-dim shape is 1-dim shape of singleton: the local [shape]
     is assigned and not read again. *)
  let shape' :=
    if Nat.eqb (length (shape self)) 0 && negb (Nat.eqb (length aindex) 0)
    then [1] else shape self in
  if negb (Nat.eqb (length aindex) (length (shape self)))
  then Raise (IndexingError (MustBeSizeOf aindex (shape self)))
  else
    _ <- check_bounds aindex 0 aindex (shape self) ;;
    index_to_position (array index) (_strides self).

(** The loop of [indices]: [out_index] is one array, overwritten by every
    [to_index] call; each [yield] copies it into a tuple. *)
Fixpoint indices_loop (ordinals : list Z) (lshape out_index : list Z)
  : result (list (list Z)) :=
  match ordinals with
  | [] => Ok []
  | i :: rest =>
      out_index' <- to_index i lshape out_index ;;
      tl <- indices_loop rest lshape out_index' ;;
      Ok (out_index' :: tl)
  end.

(** [indices()], as the list of the tuples the generator yields. *)
Definition indices (self : t) : result (list (list Z)) :=
  indices_loop (range (size self)) (shape self) (shape self).

Definition get (self : t) (key : user_index) (h : heap) : result float :=
  pos <- index self key ;;
  heap_read h (_storage self) pos.

Definition set (self : t) (key : user_index) (val : float) (h : heap)
  : result heap :=
  pos <- index self key ;;
  heap_write h (_storage self) pos val.

(** [permute].  Once the assertion has passed every entry of
    [order] is a dimension, so [self.shape[i]] is read with [nth]. *)
Definition permute (self : t) (order : list Z) (h : heap) : result (t * heap) :=
  if negb (list_eqb (sorted order) (range (Z.of_nat (length (shape self)))))
  then Raise AssertionError
  else
    if list_eqb order (range (Z.of_nat (length (shape self))))
    then Ok (self, h)
    else
      let new_shape := map (fun i => nth (Z.to_nat i) (shape self) 0) order in
      let new_strides := map (fun i => nth (Z.to_nat i) (strides self) 0) order in
      init (StorageArray (_storage self)) new_shape (Some new_strides) h.

(** The loop of [is_contiguous] over [self._strides]; [last] starts at
[1e9], and an integer exceeds that float exactly when it exceeds the
integer 10^9. *)
Fixpoint is_contiguous_loop (strides : list Z) (last : Z) : bool :=
  match strides with
  | [] => true
  | stride :: rest =>
      if stride >? last then false else is_contiguous_loop rest stride
  end.

Definition is_contiguous (self : t) : bool :=
  is_contiguous_loop (_strides self) 1000000000.

(** What the constructor establishes. *)
Definition wf (self : t) (h : heap) : Prop :=
  _strides self = strides self /\
  _shape self = shape self /\
  length (strides self) = length (shape self) /\
  dims self = length (strides self) /\
  size self = prod (shape self) /\
  Z.of_nat (length (cells h (_storage self))) = size self.

End TensorData.

(** The coordinate of the view [permute] that names the entry with
    coordinate [index] of the original tensor. *)
Definition permute_index (order : list Z) (index : list Z) : list Z :=
  map (fun i => nth (Z.to_nat i) index 0) order.

(** [q] undoes [p] on the dimensions [0 .. n-1]. *)
Definition inverse_order (n : nat) (p q : list Z) : Prop :=
  forall i, (i < n)%nat ->
    nth (Z.to_nat (nth i q 0)) p 0 = Z.of_nat i /\
    nth (Z.to_nat (nth i p 0)) q 0 = Z.of_nat i.

(** ** Scalar functions *)

(** The numbers a scalar function receives: Python ints and floats. *)
Inductive pyval : Type :=
| PyInt (z : Z)
| PyFloat (f : float).

(** [isinstance(c, float)]. *)
Definition is_float (c : pyval) : bool :=
  match c with
  | PyFloat _ => true
  | PyInt _ => false
  end.

(** [float(z)] of an int: the nearest binary64 number, [OverflowError] when
    there is none. *)
Definition float_of_int (z : Z) : result float :=
  match binary_normalize prec emax z 0 false with
  | S754_infinity _ => Raise OverflowError
  | sf => Ok (SF2Prim sf)
  end.

(** [float(v)]. *)
Definition py_float (v : pyval) : result float :=
  match v with
  | PyInt z => float_of_int z
  | PyFloat f => Ok f
  end.

(** A binary arithmetic operator of Python: ints stay ints, and an int next
    to a float is converted to a float first. *)
Definition py_arith (opz : Z -> Z -> Z) (opf : float -> float -> float)
  (a b : pyval) : result pyval :=
  match a, b with
  | PyInt x, PyInt y => Ok (PyInt (opz x y))
  | _, _ => x <- py_float a ;; y <- py_float b ;; Ok (PyFloat (opf x y))
  end.

Definition py_add : pyval -> pyval -> result pyval := py_arith Z.add PrimFloat.add.
Definition py_sub : pyval -> pyval -> result pyval := py_arith Z.sub PrimFloat.sub.
Definition py_mul : pyval -> pyval -> result pyval := py_arith Z.mul PrimFloat.mul.

(** What a [backward] returns: a number or a tuple of numbers. *)
Inductive pyobj : Type :=
| Val (v : pyval)
| Tuple (vs : list pyval).

Definition wrap_tuple (x : pyobj) : list pyval :=
  match x with
  | Tuple vs => vs
  | Val v => [v]
  end.

(** The module [operators] is not part of the sources at hand: the functions
    of it that [scalar_functions.py] calls are parameters of the embedding. *)
Module operators.
Record t : Type := mk {
  log : pyval -> result pyval;
  log_back : pyval -> pyval -> result pyval;
  mul : pyval -> pyval -> result pyval;
  inv : pyval -> result pyval;
  inv_back : pyval -> pyval -> result pyval;
  neg : pyval -> result pyval;
  sigmoid : pyval -> result pyval;
  relu : pyval -> result pyval;
  relu_back : pyval -> pyval -> result pyval;
  exp : pyval -> result pyval;
  lt : pyval -> pyval -> result pyval;
  gt : pyval -> pyval -> result pyval;
  eq : pyval -> pyval -> result pyval
}.
End operators.

(** Modelled from the spec: [autodiff.Context], not part of the sources at
    hand; a per-invocation record holding the values saved by a forward
    computation for the matching backward computation. *)
Record Context : Type := mkContext {
  no_grad : bool;
  saved_values : list pyval
}.

Definition save_for_backward (ctx : Context) (values : list pyval) : Context :=
  mkContext (no_grad ctx) values.

(** The classes of [scalar_functions.py]; a class is passed around as [cls]. *)
Inductive ScalarFunction : Type :=
| Add | Log | Mul | Inv | Neg | Sigmoid | ReLU | Exp | LT | GT | EQ.

(** Modelled from the spec: [scalar.Scalar] and [scalar.ScalarHistory], not
    part of the sources at hand; a scalar wraps a float payload and an
    optional history, the record of the function, the context and the input
    operands that produced it; a leaf has none. *)
Inductive Scalar : Type :=
| MkScalar (data : float) (history : option ScalarHistory)
with ScalarHistory : Type :=
| MkScalarHistory (last_fn : ScalarFunction) (ctx : Context) (inputs : list Scalar).

Definition data (s : Scalar) : float :=
  match s with MkScalar d _ => d end.

Definition history (s : Scalar) : option ScalarHistory :=
  match s with MkScalar _ h => h end.

(** Modelled from the spec: the constructor [Scalar(v, back)], which
    promotes a bare number to a wrapped value with a float payload. *)
Definition Scalar_init (v : pyval) (back : option ScalarHistory) : result Scalar :=
  d <- py_float v ;; Ok (MkScalar d back).

(** An argument of [apply]: a [Scalar] or a bare number. *)
Inductive ScalarLike : Type :=
| OfScalar (s : Scalar)
| OfNumber (v : pyval).

(** [cls.forward(ctx, *inps)]: the result and the context as the call leaves
    it.  A call with the wrong number of arguments is a [TypeError]. *)
Definition forward (ops : operators.t) (cls : ScalarFunction) (ctx : Context)
  (inps : list pyval) : result (Context * pyval) :=
  match cls, inps with
  | Add, [a; b] => c <- py_add a b ;; Ok (ctx, c)
  | Log, [a] =>
      let ctx := save_for_backward ctx [a] in
      c <- operators.log ops a ;; Ok (ctx, c)
  | Mul, [a; b] =>
      let ctx := save_for_backward ctx [a; b] in
      c <- operators.mul ops a b ;; Ok (ctx, c)
  | Inv, [a] =>
      let ctx := save_for_backward ctx [a] in
      c <- operators.inv ops a ;; Ok (ctx, c)
  | Neg, [a] => c <- operators.neg ops a ;; Ok (ctx, c)
  | Sigmoid, [a] =>
      let ctx := save_for_backward ctx [a] in
      c <- operators.sigmoid ops a ;; Ok (ctx, c)
  | ReLU, [a] =>
      let ctx := save_for_backward ctx [a] in
      c <- operators.relu ops a ;; Ok (ctx, c)
  | Exp, [a] =>
      let ctx := save_for_backward ctx [a] in
      c <- operators.exp ops a ;; Ok (ctx, c)
  | LT, [a; b] => c <- operators.lt ops a b ;; Ok (ctx, c)
  | GT, [a; b] => c <- operators.gt ops a b ;; Ok (ctx, c)
  | EQ, [a; b] => c <- operators.eq ops a b ;; Ok (ctx, c)
  | _, _ => Raise TypeError
  end.

(** [(a,) = ctx.saved_values]. *)
Definition unpack1 (vs : list pyval) : result pyval :=
  match vs with
  | [a] => Ok a
  | _ => Raise (ValueError UnpackMismatch)
  end.

(** [cls.backward(ctx, d_output)]. *)
Definition backward (ops : operators.t) (cls : ScalarFunction) (ctx : Context)
  (d_output : pyval) : result pyobj :=
  match cls with
  | Add => Ok (Tuple [d_output; d_output])
  | Log =>
      a <- unpack1 (saved_values ctx) ;;
      r <- operators.log_back ops a d_output ;; Ok (Val r)
  | Mul =>
      match saved_values ctx with
      | [a; b] =>
          x <- py_mul b d_output ;; y <- py_mul a d_output ;; Ok (Tuple [x; y])
      | _ => Raise (ValueError UnpackMismatch)
      end
  | Inv =>
      a <- unpack1 (saved_values ctx) ;;
      r <- operators.inv_back ops a d_output ;; Ok (Val r)
  | Neg => r <- py_mul (PyInt (-1)) d_output ;; Ok (Val r)
  | Sigmoid =>
      a <- unpack1 (saved_values ctx) ;;
      s <- operators.sigmoid ops a ;;
      u <- py_sub (PyFloat 1%float) s ;;
      w <- py_mul s u ;;
      r <- py_mul w d_output ;; Ok (Val r)
  | ReLU =>
      a <- unpack1 (saved_values ctx) ;;
      r <- operators.relu_back ops a d_output ;; Ok (Val r)
  | Exp =>
      a <- unpack1 (saved_values ctx) ;;
      e <- operators.exp ops a ;;
      r <- py_mul e d_output ;; Ok (Val r)
  | LT => Ok (Tuple [PyFloat 0%float; PyFloat 0%float])
  | GT => Ok (Tuple [PyFloat 0%float; PyFloat 0%float])
  | EQ => Ok (Tuple [PyFloat 0%float; PyFloat 0%float])
  end.

(** The class methods [_backward] and [_forward]. *)
Definition _backward (ops : operators.t) (cls : ScalarFunction) (ctx : Context)
  (d_out : pyval) : result (list pyval) :=
  r <- backward ops cls ctx d_out ;; Ok (wrap_tuple r).

Definition _forward (ops : operators.t) (cls : ScalarFunction) (ctx : Context)
  (inps : list pyval) : result (Context * pyval) :=
  forward ops cls ctx inps.

(** The first loop of [apply]: the raw values and the wrapped operands. *)
Fixpoint collect (vals : list ScalarLike) (raw_vals : list pyval)
  (scalars : list Scalar) : result (list pyval * list Scalar) :=
  match vals with
  | [] => Ok (raw_vals, scalars)
  | OfScalar v :: rest =>
      collect rest (raw_vals ++ [PyFloat (data v)]) (scalars ++ [v])
  | OfNumber v :: rest =>
      s <- Scalar_init v None ;;
      collect rest (raw_vals ++ [v]) (scalars ++ [s])
  end.

(** The class method [apply], called on the sequence of its arguments. *)
Definition apply (ops : operators.t) (cls : ScalarFunction)
  (vals : list ScalarLike) : result Scalar :=
  rs <- collect vals [] [] ;;
  let ctx := mkContext false [] in
  fc <- _forward ops cls ctx (fst rs) ;;
  if is_float (snd fc)
  then
    let back := MkScalarHistory cls (fst fc) (snd rs) in
    Scalar_init (snd fc) (Some back)
  else Raise AssertionError.

(** ** Auxiliary notions for the statements *)

(** The sum of a list of integers. *)
Definition zsum (l : list Z) : Z := fold_right Z.add 0 l.

(** The contiguous strides in reversed order: the running products of the
    reversed shape, starting from [off]. *)
Fixpoint offsets (rs : list Z) (off : Z) : list Z :=
  match rs with
  | [] => []
  | s :: r => off :: offsets r (s * off)
  end.

(** [index_to_position] applied to every coordinate of a list, in order. *)
Fixpoint positions_of (coords : list (list Z)) (strides : list Z)
  : result (list Z) :=
  match coords with
  | [] => Ok []
  | c :: tl =>
      p <- index_to_position (Arr1 c) strides ;;
      ps <- positions_of tl strides ;;
      Ok (p :: ps)
  end.

(** The spec's description of [shape_broadcast]: both shapes are padded on
    the left with 1 up to the longer length; two aligned dimensions are
    compatible when they are equal or one of them is 1; the result takes the
    larger of each pair. *)
Definition left_pad (n : nat) (shape : list Z) : list Z :=
  repeat 1 (n - length shape) ++ shape.

Definition compatible_dims (d1 d2 : Z) : bool :=
  (d1 =? d2) || (d1 =? 1) || (d2 =? 1).

Definition shape_broadcast_spec (shape1 shape2 : list Z) : result (list Z) :=
  let n := Nat.max (length shape1) (length shape2) in
  let a := left_pad n shape1 in
  let b := left_pad n shape2 in
  if forallb (fun p => compatible_dims (fst p) (snd p)) (combine a b)
  then Ok (map (fun p => Z.max (fst p) (snd p)) (combine a b))
  else Raise (IndexingError (CannotBroadcast a b)).

(** [shape] padded on the left with 1 to the length of [big_shape]. *)
Definition padded_shape (big_shape shape : list Z) : list Z :=
  repeat 1 (length big_shape - length shape) ++ shape.

(** [shape] can be broadcast to [big_shape]: it is not longer, and every
    dimension of the padded shape is 1 or the dimension of [big_shape]. *)
Definition broadcast_compatible (big_shape shape : list Z) : Prop :=
  (length shape <= length big_shape)%nat /\
  Forall2 (fun p b => p = 1 \/ p = b) (padded_shape big_shape shape) big_shape.

(** The entry [broadcast_index] writes for dimension [d] of [shape]. *)
Definition projected (big_index big_shape shape : list Z) (d : nat) : Z :=
  let big_dim := (d + (length big_shape - length shape))%nat in
  if 1 <? nth big_dim (padded_shape big_shape shape) 0
  then nth big_dim big_index 0
  else 0.

(** The test of the assertion of [permute]: [order], sorted, is the list of
    the dimensions [0 .. n-1]. *)
Definition is_permutation (n : nat) (order : list Z) : bool :=
  list_eqb (sorted order) (range (Z.of_nat n)).

(** A heap with one buffer of six entries at location 0, and the
    contiguous tensor of shape (2, 3) over it, for the examples. *)
Definition example_heap : heap :=
  snd (heap_alloc (mkHeap (fun _ => []) 0%nat) [1; 2; 3; 4; 5; 6]%float).

Definition example_tensor : TensorData.t :=
  TensorData.mk 0%nat [3; 1] [2; 3] [3; 1] 2%nat 6 [2; 3].

(** A one dimensional tensor of shape (3,) and a tensor without dimensions
    over buffers at location 0, for the examples. *)
Definition example_vector : TensorData.t :=
  TensorData.mk 0%nat [1] [3] [1] 1%nat 3 [3].

Definition example_scalar : TensorData.t :=
  TensorData.mk 0%nat [] [] [] 0%nat 1 [].

(** The value of an argument of [apply] as it is: the payload of a
    [Scalar], a bare number itself. *)
Definition raw_value (v : ScalarLike) : pyval :=
  match v with
  | OfScalar s => PyFloat (data s)
  | OfNumber n => n
  end.

(** The number of inputs the [forward] of a class takes after [ctx]. *)
Definition arity (cls : ScalarFunction) : nat :=
  match cls with
  | Add | Mul | LT | GT | EQ => 2
  | Log | Inv | Neg | Sigmoid | ReLU | Exp => 1
  end.

(** The leaf [apply] records for an argument: a [Scalar] itself, the
    promotion of a bare number. *)
Definition recorded_input (v : ScalarLike) (s : Scalar) : Prop :=
  match v with
  | OfScalar sc => s = sc
  | OfNumber n => exists d, py_float n = Ok d /\ s = MkScalar d None
  end.

(** An instance of the operators for the examples: [mul] is the
    multiplication of Python; the examples call no other operator, and the
    others raise. *)
Definition example_operators : operators.t :=
  operators.mk
    (fun _ => Raise TypeError) (fun _ _ => Raise TypeError)
    py_mul
    (fun _ => Raise TypeError) (fun _ _ => Raise TypeError)
    (fun _ => Raise TypeError) (fun _ => Raise TypeError)
    (fun _ => Raise TypeError) (fun _ _ => Raise TypeError)
    (fun _ => Raise TypeError)
    (fun _ _ => Raise TypeError) (fun _ _ => Raise TypeError)
    (fun _ _ => Raise TypeError).

(** A value a numpy [int64] can hold. *)
Definition is_int64 (z : Z) : Prop := - 2 ^ 63 <= z < 2 ^ 63.

(** A value a numpy [int32] can hold, the element type the source declares
    for [Shape], [Index] and [OutIndex]; such a value fits whichever of the
    two integer types an array has. *)
Definition is_int32 (z : Z) : Prop := - 2 ^ 31 <= z < 2 ^ 31.

(** The entry the spec describes for dimension [d] of [shape]: 0 when the
    padded size is 1, the entry of [big_index] at the right-aligned
    dimension otherwise. *)
Definition projected_spec (big_index big_shape shape : list Z) (d : nat) : Z :=
  let big_dim := (d + (length big_shape - length shape))%nat in
  if nth big_dim (padded_shape big_shape shape) 0 =? 1
  then 0
  else nth big_dim big_index 0.

(** A heap with a second buffer, of three entries at location 1, and the
    one dimensional tensor over that buffer, for the examples. *)
Definition example_heap_two : heap :=
  snd (heap_alloc example_heap [7; 8; 9]%float).

Definition example_vector_two : TensorData.t :=
  TensorData.mk 1%nat [1] [3] [1] 1%nat 3 [3].

(** * Properties *)

(** ** Lists and arrays *)

Lemma array_set_ok (a : list Z) (i : nat) (v : Z) :
  (i < length a)%nat ->
  array_set a i v = Ok (firstn i a ++ v :: skipn (S i) a).
Proof.
  revert i; induction a as [|x a IH]; intros [|i] H; simpl in *; try lia.
  - reflexivity.
  - rewrite IH by lia. reflexivity.
Qed.

Lemma firstn_succ_nth {A : Type} (l : list A) (i : nat) (d : A) :
  (i < length l)%nat -> firstn (S i) l = firstn i l ++ [nth i l d].
Proof.
  revert i; induction l as [|x l IH]; intros [|i] H; simpl in *; try lia.
  - reflexivity.
  - f_equal. apply IH. lia.
Qed.

Lemma skipn_firstn_cons {A : Type} (a : list A) (i : nat) (v : A) (rest : list A) :
  (i <= length a)%nat -> skipn i (firstn i a ++ v :: rest) = v :: rest.
Proof.
  intros H. rewrite skipn_app, length_firstn.
  replace (Nat.min i (length a)) with i by lia.
  rewrite Nat.sub_diag. simpl.
  rewrite skipn_all2; [reflexivity | rewrite length_firstn; lia].
Qed.

Lemma range_spec (n : Z) (x : Z) : In x (range n) <-> 0 <= x < n.
Proof.
  unfold range. rewrite in_map_iff. split.
  - intros (k & <- & Hk). apply in_seq in Hk. lia.
  - intros H. exists (Z.to_nat x). split; [lia | apply in_seq; lia].
Qed.

Lemma range_NoDup (n : Z) : NoDup (range n).
Proof.
  unfold range. apply Finite.Injective_map_NoDup.
  - intros a b H. lia.
  - apply seq_NoDup.
Qed.

Lemma range_length (n : nat) : length (range (Z.of_nat n)) = n.
Proof. unfold range. rewrite length_map, length_seq. lia. Qed.

(** ** Mixed radix numbers: [unravel] and [ravel] *)

Lemma prod_pos (shape : list Z) : all_positive shape -> 0 < prod shape.
Proof.
  unfold prod. induction 1 as [|s l Hs _ IH]; cbn [fold_right];
    [lia | apply Z.mul_pos_pos; assumption].
Qed.

Lemma prod_app (a b : list Z) : prod (a ++ b) = prod a * prod b.
Proof.
  unfold prod. induction a as [|x a IH]; cbn [app fold_right]; [lia | rewrite IH; ring].
Qed.

Lemma prod_rev (l : list Z) : prod (rev l) = prod l.
Proof.
  induction l as [|x l IH]; cbn [rev]; [reflexivity|].
  rewrite prod_app, IH. unfold prod. cbn [fold_right]. lia.
Qed.

Lemma unravel_length (rs : list Z) (o : Z) : length (unravel rs o) = length rs.
Proof. revert o; induction rs as [|s r IH]; intros o; simpl; auto. Qed.

Lemma unravel_in_bounds (rs : list Z) (o : Z) :
  all_positive rs -> in_bounds (unravel rs o) rs.
Proof.
  intros H; revert o; induction H as [|s r Hs _ IH]; intros o; simpl.
  - constructor.
  - constructor; [apply Z.mod_pos_bound; lia | apply IH].
Qed.

Lemma ravel_unravel (rs : list Z) (o : Z) :
  all_positive rs -> 0 <= o < prod rs -> ravel rs (unravel rs o) = o.
Proof.
  intros H; revert o; induction H as [|s r Hs Hr IH]; intros o Ho;
    cbn [ravel unravel].
  - change (prod []) with 1 in Ho. lia.
  - change (prod (s :: r)) with (s * prod r) in Ho.
    pose proof (prod_pos r Hr) as Hp.
    rewrite IH.
    + pose proof (Z.div_mod o s). lia.
    + split.
      * apply Z.div_pos; lia.
      * apply Z.div_lt_upper_bound; lia.
Qed.

Lemma ravel_range (rs ds : list Z) :
  in_bounds ds rs -> 0 <= ravel rs ds < prod rs.
Proof.
  unfold in_bounds. induction 1 as [|d s ds rs Hd _ IH]; cbn [ravel];
    [change (prod []) with 1; lia|].
  change (prod (s :: rs)) with (s * prod rs). nia.
Qed.

Lemma unravel_ravel (rs ds : list Z) :
  in_bounds ds rs -> unravel rs (ravel rs ds) = ds.
Proof.
  unfold in_bounds. induction 1 as [|d s ds rs Hd _ IH]; cbn [ravel unravel];
    [reflexivity|].
  replace (d + s * ravel rs ds) with (d + ravel rs ds * s) by ring.
  f_equal.
  - rewrite Z.mod_add by lia. apply Z.mod_small. lia.
  - rewrite Z.div_add by lia. rewrite (Z.div_small d s) by lia. exact IH.
Qed.

Lemma in_bounds_rev (a b : list Z) : in_bounds a b -> in_bounds (rev a) (rev b).
Proof.
  unfold in_bounds. induction 1 as [|x y a b Hxy _ IH]; simpl; [constructor|].
  apply Forall2_app; [exact IH | constructor; [exact Hxy | constructor]].
Qed.

Lemma in_bounds_length (a b : list Z) : in_bounds a b -> length a = length b.
Proof. unfold in_bounds. induction 1; simpl; congruence. Qed.

Lemma all_positive_rev (l : list Z) : all_positive l -> all_positive (rev l).
Proof. unfold all_positive. apply Forall_rev. Qed.

Lemma to_index_spec_length (o : Z) (shape : list Z) :
  length (to_index_spec o shape) = length shape.
Proof. unfold to_index_spec. rewrite length_rev, unravel_length, length_rev. reflexivity. Qed.

(** ** [to_index] *)

(** The loop over the dimensions below [n] writes the coordinate of the
    first [n] dimensions and leaves the rest of [out_index] as it was. *)
Lemma to_index_loop_spec (shape : list Z) (n : nat) :
  all_positive shape -> (n <= length shape)%nat ->
  forall (o : Z) (out_index : list Z), (n <= length out_index)%nat ->
    to_index_loop n o shape out_index
    = Ok (to_index_spec o (firstn n shape) ++ skipn n out_index).
Proof.
  intros Hpos. induction n as [|i IH]; intros Hn o out Hout.
  - reflexivity.
  - cbn [to_index_loop].
    assert (Hs : 0 < nth i shape 0).
    { unfold all_positive in Hpos. rewrite Forall_forall in Hpos.
      apply Hpos, nth_In. lia. }
    unfold np_mod, np_floordiv.
    destruct (Z.eqb_spec (nth i shape 0) 0) as [E|_]; [lia|].
    rewrite array_set_ok by lia. cbn [bind].
    rewrite IH; [| lia | rewrite length_app, length_firstn; simpl; lia].
    rewrite skipn_firstn_cons by lia.
    rewrite (firstn_succ_nth shape i 0) by lia.
    unfold to_index_spec. rewrite rev_app_distr. simpl.
    rewrite <- app_assoc. reflexivity.
Qed.

Lemma to_index_ok (o : Z) (shape out_index : list Z) :
  all_positive shape -> length out_index = length shape ->
  to_index o shape out_index = Ok (to_index_spec o shape).
Proof.
  intros Hpos Hlen. unfold to_index.
  rewrite to_index_loop_spec by (auto; lia).
  rewrite firstn_all, skipn_all2 by lia. apply f_equal, app_nil_r.
Qed.

Lemma to_index_spec_in_bounds (o : Z) (shape : list Z) :
  all_positive shape -> in_bounds (to_index_spec o shape) shape.
Proof.
  intros H. unfold to_index_spec.
  rewrite <- (rev_involutive shape) at 2.
  apply in_bounds_rev, unravel_in_bounds, all_positive_rev, H.
Qed.

Lemma to_index_spec_inj (shape : list Z) (o1 o2 : Z) :
  all_positive shape -> 0 <= o1 < prod shape -> 0 <= o2 < prod shape ->
  to_index_spec o1 shape = to_index_spec o2 shape -> o1 = o2.
Proof.
  intros Hpos H1 H2 E. unfold to_index_spec in E.
  apply (f_equal (@rev Z)) in E. rewrite !rev_involutive in E.
  rewrite <- (ravel_unravel (rev shape) o1), <- (ravel_unravel (rev shape) o2), E;
    auto using all_positive_rev; rewrite prod_rev; assumption.
Qed.

Lemma to_index_spec_surj (shape index : list Z) :
  in_bounds index shape ->
  0 <= ravel (rev shape) (rev index) < prod shape /\
  to_index_spec (ravel (rev shape) (rev index)) shape = index.
Proof.
  intros H. apply in_bounds_rev in H. split.
  - rewrite <- prod_rev. apply ravel_range, H.
  - unfold to_index_spec. rewrite unravel_ravel by exact H. apply rev_involutive.
Qed.

(** C1.  For a shape with positive dimensions and an ordinal below its
    size, [to_index] fills [out_index] with the coordinate obtained by
    taking the dimensions from last to first, [ordinal mod shape[dim]] and
    then [ordinal //= shape[dim]]; that coordinate is within the bounds of
    the shape, distinct ordinals give distinct coordinates, and every
    coordinate within bounds is the image of an ordinal below the size. *)
Theorem to_index_bijection (shape out_index : list Z) :
  all_positive shape -> length out_index = length shape ->
  (forall o, 0 <= o < prod shape ->
     to_index o shape out_index = Ok (to_index_spec o shape) /\
     in_bounds (to_index_spec o shape) shape) /\
  (forall o1 o2, 0 <= o1 < prod shape -> 0 <= o2 < prod shape ->
     to_index o1 shape out_index = to_index o2 shape out_index -> o1 = o2) /\
  (forall index, in_bounds index shape ->
     exists o, 0 <= o < prod shape /\ to_index o shape out_index = Ok index).
Proof.
  intros Hpos Hlen. repeat split.
  - apply to_index_ok; assumption.
  - apply to_index_spec_in_bounds; assumption.
  - intros o1 o2 H1 H2 E. rewrite !to_index_ok in E by assumption.
    injection E as E. eapply to_index_spec_inj; eauto.
  - intros index Hb. destruct (to_index_spec_surj shape index Hb) as [Hr Hs].
    exists (ravel (rev shape) (rev index)). split; [exact Hr|].
    rewrite to_index_ok by assumption. rewrite Hs. reflexivity.
Qed.

Lemma to_index_bijection_witness :
  to_index 5 [2; 3] [0; 0] = Ok [1; 2] /\
  exists o, 0 <= o < prod [2; 3] /\ to_index o [2; 3] [0; 0] = Ok [0; 1].
Proof.
  assert (Hpos : all_positive [2; 3]) by (repeat constructor).
  destruct (to_index_bijection [2; 3] [0; 0] Hpos eq_refl) as (H1 & _ & H3).
  split.
  - destruct (H1 5) as [E _]; [simpl; lia | exact E].
  - apply H3. repeat constructor; lia.
Defined.

(** ** Contiguous strides *)

Lemma zsum_Permutation (a b : list Z) : Permutation a b -> zsum a = zsum b.
Proof.
  unfold zsum. induction 1; cbn [fold_right]; lia.
Qed.

Lemma fold_left_dot_acc (l : list (Z * Z)) (acc : Z) :
  fold_left (fun a p => a + fst p * snd p) l acc
  = acc + zsum (map (fun p => fst p * snd p) l).
Proof.
  unfold zsum. revert acc; induction l as [|p l IH]; intros acc;
    cbn [fold_left map fold_right]; [lia | rewrite IH; lia].
Qed.

Lemma dot_zsum (a b : list Z) :
  dot a b = zsum (map (fun p => fst p * snd p) (combine a b)).
Proof. unfold dot. rewrite fold_left_dot_acc. lia. Qed.

Lemma combine_snoc {A B : Type} (l1 : list A) (l2 : list B) (x : A) (y : B) :
  length l1 = length l2 ->
  combine (l1 ++ [x]) (l2 ++ [y]) = combine l1 l2 ++ [(x, y)].
Proof.
  revert l2; induction l1 as [|a l1 IH]; intros [|b l2] H; simpl in *;
    try discriminate; [reflexivity|].
  f_equal. apply IH. congruence.
Qed.

Lemma combine_rev_rev {A B : Type} (l1 : list A) (l2 : list B) :
  length l1 = length l2 -> combine (rev l1) (rev l2) = rev (combine l1 l2).
Proof.
  revert l2; induction l1 as [|a l1 IH]; intros [|b l2] H; simpl in *;
    try discriminate; [reflexivity|].
  rewrite combine_snoc by (rewrite !length_rev; congruence).
  rewrite IH by congruence. reflexivity.
Qed.

Lemma dot_rev (a b : list Z) :
  length a = length b -> dot (rev a) (rev b) = dot a b.
Proof.
  intros H. rewrite !dot_zsum, combine_rev_rev by exact H.
  apply zsum_Permutation. rewrite map_rev. symmetry. apply Permutation_rev.
Qed.

Lemma offsets_length (rs : list Z) (off : Z) : length (offsets rs off) = length rs.
Proof. revert off; induction rs as [|s r IH]; intros off; simpl; auto. Qed.

Lemma strides_loop_offsets (rs layout : list Z) (off : Z) :
  strides_loop rs (layout ++ [off]) off
  = layout ++ offsets rs off ++ [prod rs * off].
Proof.
  revert layout off; induction rs as [|s r IH]; intros layout off;
    cbn [strides_loop offsets].
  - change (prod []) with 1. rewrite Z.mul_1_l. reflexivity.
  - rewrite IH. rewrite <- app_assoc. cbn [app].
    change (prod (s :: r)) with (s * prod r).
    replace (prod r * (s * off)) with (s * prod r * off) by ring.
    reflexivity.
Qed.

Lemma strides_from_shape_offsets (shape : list Z) :
  strides_from_shape shape = rev (offsets (rev shape) 1).
Proof.
  unfold strides_from_shape.
  change [1] with ([] ++ [1]).
  rewrite (strides_loop_offsets (rev shape) [] 1). cbn [app].
  rewrite removelast_last. reflexivity.
Qed.

Lemma strides_from_shape_length (shape : list Z) :
  length (strides_from_shape shape) = length shape.
Proof.
  rewrite strides_from_shape_offsets, length_rev, offsets_length, length_rev.
  reflexivity.
Qed.

Lemma dot_offsets (rs : list Z) :
  forall (ds : list Z) (off : Z), length ds = length rs ->
    dot ds (offsets rs off) = off * ravel rs ds.
Proof.
  induction rs as [|s r IH]; intros [|d ds] off H; simpl in H; try discriminate.
  - unfold dot. cbn. lia.
  - rewrite dot_zsum. cbn [offsets combine map ravel fst snd].
    unfold zsum. cbn [fold_right]. fold (zsum (map (fun p => fst p * snd p)
      (combine ds (offsets r (s * off))))).
    rewrite <- dot_zsum, IH by congruence. ring.
Qed.

(** Under the contiguous strides the coordinate of an ordinal sits at the
    position that equals the ordinal. *)
Lemma position_of_to_index_spec (shape : list Z) (o : Z) :
  all_positive shape -> 0 <= o < prod shape ->
  index_to_position (Arr1 (to_index_spec o shape)) (strides_from_shape shape)
  = Ok o.
Proof.
  intros Hpos Ho. unfold index_to_position. cbn [py_len bind].
  rewrite to_index_spec_length, strides_from_shape_length, Nat.eqb_refl.
  cbn [negb]. f_equal.
  rewrite strides_from_shape_offsets. unfold to_index_spec.
  rewrite dot_rev by (rewrite unravel_length, offsets_length; reflexivity).
  rewrite dot_offsets by apply unravel_length.
  rewrite ravel_unravel; [lia | apply all_positive_rev, Hpos |].
  rewrite prod_rev. exact Ho.
Qed.

Lemma indices_loop_ok (shape : list Z) (ordinals : list Z) :
  all_positive shape ->
  forall out_index, length out_index = length shape ->
    TensorData.indices_loop ordinals shape out_index
    = Ok (map (fun o => to_index_spec o shape) ordinals).
Proof.
  intros Hpos. induction ordinals as [|o tl IH]; intros out Hlen;
    cbn [TensorData.indices_loop map].
  - reflexivity.
  - rewrite to_index_ok by assumption. cbn [bind].
    rewrite IH by apply to_index_spec_length. reflexivity.
Qed.

Lemma positions_of_ok (shape : list Z) (ordinals : list Z) :
  all_positive shape ->
  (forall o, In o ordinals -> 0 <= o < prod shape) ->
  positions_of (map (fun o => to_index_spec o shape) ordinals)
               (strides_from_shape shape)
  = Ok ordinals.
Proof.
  intros Hpos. induction ordinals as [|o tl IH]; intros Hin;
    cbn [positions_of map].
  - reflexivity.
  - rewrite position_of_to_index_spec by (auto; apply Hin; left; reflexivity).
    cbn [bind]. rewrite IH by (intros; apply Hin; right; assumption).
    reflexivity.
Qed.

Lemma init_default_strides storage shape h t h' :
  TensorData.init storage shape None h = Ok (t, h') ->
  TensorData.shape t = shape /\
  TensorData.strides t = strides_from_shape shape /\
  TensorData.size t = prod shape.
Proof.
  unfold TensorData.init. intros H.
  destruct (match storage with
            | StorageArray l => (l, h)
            | StorageSeq vals => heap_alloc h vals
            end) as [l h1].
  destruct (negb _); [discriminate|].
  destruct (_ =? _); [|discriminate].
  injection H as <- _. cbn. auto.
Qed.

(** C2.  For a shape with positive dimensions, a tensor built with the
    default strides has the strides [strides_from_shape] returns, and
    [index_to_position] applied with them to the coordinates that
    [indices()] yields gives, from [size] coordinates, positions without
    repetition that are exactly the integers from 0 to [size - 1]. *)
Theorem contiguous_positions_cover_buffer
  (storage : storage_arg) (shape : list Z) (h h' : heap) (t : TensorData.t) :
  all_positive shape ->
  TensorData.init storage shape None h = Ok (t, h') ->
  exists coords positions,
    TensorData.indices t = Ok coords /\
    Z.of_nat (length coords) = TensorData.size t /\
    TensorData.size t = prod shape /\
    TensorData.strides t = strides_from_shape shape /\
    positions_of coords (strides_from_shape shape) = Ok positions /\
    NoDup positions /\
    (forall p, In p positions <-> 0 <= p < prod shape).
Proof.
  intros Hpos Hinit.
  destruct (init_default_strides _ _ _ _ _ Hinit) as (Hshape & Hstrides & Hsize).
  exists (map (fun o => to_index_spec o shape) (range (prod shape))),
         (range (prod shape)).
  split; [| split; [| split; [| split; [| split; [| split]]]]].
  - unfold TensorData.indices. rewrite Hshape, Hsize.
    apply indices_loop_ok; auto.
  - rewrite Hsize, length_map. unfold range. rewrite length_map, length_seq.
    pose proof (prod_pos shape Hpos). lia.
  - exact Hsize.
  - exact Hstrides.
  - apply positions_of_ok; [exact Hpos | intros o; apply range_spec].
  - apply range_NoDup.
  - intros p. apply range_spec.
Qed.

Lemma contiguous_positions_cover_buffer_witness :
  exists coords positions,
    TensorData.indices
      (TensorData.mk 0%nat [3; 1] [2; 3] [3; 1] 2%nat 6 [2; 3]) = Ok coords /\
    Z.of_nat (length coords) = 6 /\
    6 = prod [2; 3] /\
    [3; 1] = strides_from_shape [2; 3] /\
    positions_of coords (strides_from_shape [2; 3]) = Ok positions /\
    NoDup positions /\
    (forall p, In p positions <-> 0 <= p < prod [2; 3]).
Proof.
  apply (contiguous_positions_cover_buffer
           (StorageSeq [1; 2; 3; 4; 5; 6]%float) [2; 3]
           (mkHeap (fun _ => []) 0%nat)
           (snd (heap_alloc (mkHeap (fun _ => []) 0%nat)
                            [1; 2; 3; 4; 5; 6]%float))).
  - repeat constructor.
  - reflexivity.
Defined.

(** ** [shape_broadcast] *)

Lemma pad_shapes_left_pad (shape1 shape2 : list Z) :
  pad_shapes shape1 shape2
  = (left_pad (Nat.max (length shape1) (length shape2)) shape1,
     left_pad (Nat.max (length shape1) (length shape2)) shape2).
Proof.
  unfold pad_shapes, left_pad.
  destruct (Nat.eqb_spec (length shape1) (length shape2)) as [E|NE]; cbn [negb].
  - rewrite E, Nat.max_id, Nat.sub_diag. reflexivity.
  - destruct (Nat.ltb_spec (length shape1) (length shape2)) as [L|G].
    + rewrite Nat.max_r, Nat.sub_diag by lia. reflexivity.
    + rewrite Nat.max_l, Nat.sub_diag by lia. reflexivity.
Qed.

Lemma shape_broadcast_loop_spec (pairs : list (Z * Z)) (s1 s2 acc : list Z) :
  shape_broadcast_loop pairs s1 s2 acc
  = if forallb (fun p => compatible_dims (fst p) (snd p)) pairs
    then Ok (acc ++ map (fun p => Z.max (fst p) (snd p)) pairs)
    else Raise (IndexingError (CannotBroadcast s1 s2)).
Proof.
  revert acc; induction pairs as [|[d1 d2] rest IH]; intros acc;
    cbn [shape_broadcast_loop forallb map fst snd].
  - rewrite app_nil_r. reflexivity.
  - unfold compatible_dims.
    destruct (d1 =? d2), (d1 =? 1), (d2 =? 1); cbn [negb orb andb];
      try reflexivity; rewrite IH, <- app_assoc; reflexivity.
Qed.

(** C3.  [shape_broadcast] right-aligns the two shapes by padding the
    shorter one on the left with 1, returns the larger of each aligned pair
    when every pair is equal or has a 1, and raises an [IndexingError] whose
    message carries the two aligned shapes otherwise; on the three examples
    of the spec it gives (5,3), (5,3) and an [IndexingError]. *)
Theorem shape_broadcast_correct :
  (forall shape1 shape2,
     shape_broadcast shape1 shape2 = shape_broadcast_spec shape1 shape2) /\
  shape_broadcast [5; 3] [3] = Ok [5; 3] /\
  shape_broadcast [1; 3] [5; 1] = Ok [5; 3] /\
  shape_broadcast [2; 3] [4; 3]
  = Raise (IndexingError (CannotBroadcast [2; 3] [4; 3])).
Proof.
  split; [| repeat split; reflexivity].
  intros shape1 shape2. unfold shape_broadcast, shape_broadcast_spec.
  rewrite pad_shapes_left_pad. cbv zeta.
  rewrite shape_broadcast_loop_spec. reflexivity.
Qed.

(** ** [broadcast_index] *)

Lemma check_compatible_ok (padded big ob os : list Z) :
  Forall2 (fun p b => p = 1 \/ p = b) padded big ->
  check_compatible padded big ob os = Ok tt.
Proof.
  induction 1 as [|p b ps bs Hpb _ IH]; cbn [check_compatible]; [reflexivity|].
  destruct (Z.eqb_spec p 1), (Z.eqb_spec p b); cbn [negb andb]; auto.
  destruct Hpb; contradiction.
Qed.

Lemma check_compatible_fail (padded : list Z) :
  forall (big ob os : list Z) (d : nat),
    length padded = length big -> (d < length big)%nat ->
    nth d padded 0 <> 1 -> nth d padded 0 <> nth d big 0 ->
    check_compatible padded big ob os
    = Raise (ValueError (NotBroadcastCompatible ob os)).
Proof.
  induction padded as [|p ps IH]; intros [|b bs] ob os d Hlen Hd H1 Hb;
    simpl in Hlen, Hd; try discriminate; try lia.
  cbn [check_compatible].
  destruct (Z.eqb_spec p 1) as [E1|N1], (Z.eqb_spec p b) as [Eb|Nb];
    cbn [negb andb]; try reflexivity;
    (destruct d as [|d]; [simpl in H1, Hb; congruence |
       apply (IH bs ob os d); simpl in H1, Hb; auto; lia]).
Qed.

Lemma array_get_ok (a : list Z) (i : nat) :
  (i < length a)%nat -> array_get a i = Ok (nth i a 0).
Proof.
  intros H. unfold array_get. rewrite (nth_error_nth' a 0 H). reflexivity.
Qed.

Lemma firstn_succ_app_cons {A : Type} (a : list A) (i : nat) (v : A) (rest : list A) :
  (i <= length a)%nat -> firstn (S i) (firstn i a ++ v :: rest) = firstn i a ++ [v].
Proof.
  intros H. rewrite firstn_app, length_firstn.
  replace (Nat.min i (length a)) with i by lia.
  replace (S i - i)%nat with 1%nat by lia.
  rewrite firstn_all2 by (rewrite length_firstn; lia). reflexivity.
Qed.

Lemma skipn_past_app_cons {A : Type} (a : list A) (i k : nat) (v : A) :
  (i < length a)%nat ->
  skipn (S i + k) (firstn i a ++ v :: skipn (S i) a) = skipn (S i + k) a.
Proof.
  intros H. rewrite skipn_app, length_firstn.
  replace (Nat.min i (length a)) with i by lia.
  rewrite skipn_all2 by (rewrite length_firstn; lia).
  replace (S i + k - i)%nat with (S k) by lia. cbn [app].
  change (skipn (S k) (v :: skipn (S i) a)) with (skipn k (skipn (S i) a)).
  rewrite skipn_skipn. f_equal. lia.
Qed.

(** The mapping loop writes the entries [dim .. dim + k - 1] and keeps the
    others. *)
Lemma map_indices_spec (big_index big_shape shape : list Z) (k : nat) :
  (length big_shape <= length big_index)%nat ->
  (length shape <= length big_shape)%nat ->
  forall (dim : nat) (out_index : list Z),
    (dim + k <= length shape)%nat -> (dim + k <= length out_index)%nat ->
    map_indices k dim (length big_shape - length shape)
      (padded_shape big_shape shape) big_index out_index
    = Ok (firstn dim out_index
          ++ map (projected big_index big_shape shape) (seq dim k)
          ++ skipn (dim + k) out_index).
Proof.
  intros Hbig Hle. induction k as [|k IH]; intros dim out Hs Hout.
  - cbn [map_indices seq map app]. rewrite Nat.add_0_r, firstn_skipn. reflexivity.
  - cbn [map_indices seq map].
    assert (Hset : (if 1 <? nth (dim + (length big_shape - length shape))
                                (padded_shape big_shape shape) 0
                    then v <- array_get big_index
                                (dim + (length big_shape - length shape)) ;;
                         array_set out dim v
                    else array_set out dim 0)
                   = Ok (firstn dim out
                         ++ projected big_index big_shape shape dim
                         :: skipn (S dim) out)).
    { unfold projected. cbv zeta.
      destruct (1 <? _).
      - rewrite array_get_ok by lia. cbn [bind]. apply array_set_ok. lia.
      - apply array_set_ok. lia. }
    rewrite Hset. cbn [bind].
    rewrite IH; [| lia | rewrite length_app, length_firstn; cbn [length];
                         rewrite length_skipn; lia].
    rewrite firstn_succ_app_cons by lia.
    rewrite skipn_past_app_cons by lia.
    rewrite <- app_assoc. cbn [app].
    replace (S dim + k)%nat with (dim + S k)%nat by lia. reflexivity.
Qed.

Lemma projected_positive (big_index big_shape shape : list Z) (d : nat) :
  all_positive shape -> (length shape <= length big_shape)%nat ->
  (d < length shape)%nat ->
  projected big_index big_shape shape d
  = if nth (d + (length big_shape - length shape))
           (padded_shape big_shape shape) 0 =? 1
    then 0
    else nth (d + (length big_shape - length shape)) big_index 0.
Proof.
  intros Hpos Hle L. unfold projected, padded_shape. cbv zeta.
  rewrite app_nth2 by (rewrite repeat_length; lia).
  rewrite repeat_length.
  replace (d + (length big_shape - length shape)
           - (length big_shape - length shape))%nat with d by lia.
  assert (0 < nth d shape 0).
  { unfold all_positive in Hpos. rewrite Forall_forall in Hpos.
    apply Hpos, nth_In, L. }
  destruct (Z.ltb_spec 1 (nth d shape 0)), (Z.eqb_spec (nth d shape 0) 1);
    try reflexivity; lia.
Qed.

Lemma compatible_padded_ge_1 (padded big_shape : list Z) :
  Forall2 (fun p b => p = 1 \/ p = b) padded big_shape ->
  forall big_index, in_bounds big_index big_shape ->
    Forall (fun p => 1 <= p) padded.
Proof.
  induction 1 as [|p b ps bs Hpb _ IH]; intros big_index Hb; [constructor|].
  unfold in_bounds in Hb. inversion Hb as [|i b' is' bs' Hi Hrest]; subst.
  constructor; [destruct Hpb; lia | apply (IH is'), Hrest].
Qed.

Lemma projected_spec_agrees (big_index big_shape shape : list Z) (d : nat) :
  broadcast_compatible big_shape shape ->
  in_bounds big_index big_shape ->
  (d < length shape)%nat ->
  projected big_index big_shape shape d
  = projected_spec big_index big_shape shape d.
Proof.
  intros [Hle Hcompat] Hb Hd. unfold projected, projected_spec. cbv zeta.
  pose proof (compatible_padded_ge_1 _ _ Hcompat _ Hb) as Hge.
  rewrite Forall_forall in Hge.
  assert (H1 : 1 <= nth (d + (length big_shape - length shape))
                        (padded_shape big_shape shape) 0).
  { apply Hge, nth_In. unfold padded_shape.
    rewrite length_app, repeat_length. lia. }
  destruct (Z.ltb_spec 1 (nth (d + (length big_shape - length shape))
                              (padded_shape big_shape shape) 0)),
           (Z.eqb_spec (nth (d + (length big_shape - length shape))
                            (padded_shape big_shape shape) 0) 1);
    try reflexivity; lia.
Qed.

(** C4.  When [shape] is broadcast-compatible with [big_shape],
    [big_index] is a coordinate of [big_shape] and [out_index] has an entry
    for every dimension of [shape]: a [shape] without dimensions leaves
    [out_index] unchanged; otherwise entry [d] of [out_index], for each
    dimension [d] of [shape], becomes 0 when the padded size at that
    dimension is 1 and the entry of [big_index] at the right-aligned
    dimension of [big_shape] otherwise, and the entries past the dimensions
    of [shape] are kept. *)
Theorem broadcast_index_projects (big_index big_shape shape out_index : list Z) :
  broadcast_compatible big_shape shape ->
  in_bounds big_index big_shape ->
  (length shape <= length out_index)%nat ->
  (length shape = 0%nat ->
     broadcast_index big_index big_shape shape out_index = Ok out_index) /\
  broadcast_index big_index big_shape shape out_index
  = Ok (map (projected_spec big_index big_shape shape) (seq 0 (length shape))
        ++ skipn (length shape) out_index).
Proof.
  intros Hc Hb Hout. pose proof Hc as [Hle Hcompat].
  pose proof (in_bounds_length _ _ Hb) as Hl.
  split.
  - intros E. unfold broadcast_index. rewrite E. reflexivity.
  - rewrite <- (map_ext_in (projected big_index big_shape shape)
                  (projected_spec big_index big_shape shape)).
    + unfold broadcast_index.
      destruct (Nat.eqb_spec (length shape) 0) as [E|NE].
      * rewrite E. reflexivity.
      * destruct (Nat.ltb_spec (length big_shape) (length shape)); [lia|].
        fold (padded_shape big_shape shape).
        rewrite check_compatible_ok by exact Hcompat. cbn [bind].
        rewrite (map_indices_spec big_index big_shape shape) by (auto; lia).
        reflexivity.
    + intros d Hd. apply in_seq in Hd.
      apply projected_spec_agrees; [exact Hc | exact Hb | lia].
Qed.

Lemma broadcast_index_projects_witness :
  broadcast_index [1; 2] [2; 3] [3] [7] = Ok [2].
Proof.
  destruct (broadcast_index_projects [1; 2] [2; 3] [3] [7]) as (_ & H).
  - split; [simpl; lia |].
    constructor; [left; reflexivity | constructor; [right; reflexivity | constructor]].
  - constructor; [lia | constructor; [lia | constructor]].
  - simpl; lia.
  - exact H.
Defined.

(** C5.  What the code does where the claim asks for an [IndexingError]:
    when some dimension of the left-padded [shape] is neither 1 nor the
    dimension of [big_shape], [broadcast_index] raises a [ValueError] whose
    message carries [big_shape] and [shape]; the exception is not the
    [IndexingError] that [shape_broadcast] raises for incompatible
    shapes. *)
Theorem broadcast_index_incompatible (big_index big_shape shape out_index : list Z) :
  (length shape <= length big_shape)%nat ->
  (exists d, (d < length big_shape)%nat /\
             nth d (padded_shape big_shape shape) 0 <> 1 /\
             nth d (padded_shape big_shape shape) 0 <> nth d big_shape 0) ->
  broadcast_index big_index big_shape shape out_index
  = Raise (ValueError (NotBroadcastCompatible big_shape shape)) /\
  is_IndexingError (broadcast_index big_index big_shape shape out_index) = false.
Proof.
  intros Hle (d & Hd & H1 & Hb).
  assert (E : broadcast_index big_index big_shape shape out_index
              = Raise (ValueError (NotBroadcastCompatible big_shape shape))).
  { unfold broadcast_index.
    destruct (Nat.eqb_spec (length shape) 0) as [E0|NE].
    - exfalso. apply H1. unfold padded_shape.
      apply length_zero_iff_nil in E0. subst shape.
      rewrite app_nil_r. apply nth_repeat_lt. simpl. lia.
    - destruct (Nat.ltb_spec (length big_shape) (length shape)); [lia|].
      fold (padded_shape big_shape shape).
      rewrite (check_compatible_fail _ _ _ _ d); auto.
      unfold padded_shape. rewrite length_app, repeat_length. lia. }
  rewrite E. split; reflexivity.
Qed.

Lemma broadcast_index_incompatible_witness :
  broadcast_index [1; 2] [2; 3] [4] [7]
  = Raise (ValueError (NotBroadcastCompatible [2; 3] [4])) /\
  is_IndexingError (broadcast_index [1; 2] [2; 3] [4] [7]) = false.
Proof.
  apply (broadcast_index_incompatible [1; 2] [2; 3] [4] [7]).
  - simpl; lia.
  - exists 1%nat. simpl. repeat split; lia.
Defined.

(** ** Permutations of the dimensions *)

Lemma insert_sorted_perm (x : Z) (l : list Z) :
  Permutation (insert_sorted x l) (x :: l).
Proof.
  induction l as [|y l IH]; cbn [insert_sorted]; [reflexivity|].
  destruct (x <=? y); [reflexivity|].
  rewrite IH. apply perm_swap.
Qed.

Lemma sorted_perm (l : list Z) : Permutation (sorted l) l.
Proof.
  unfold sorted. induction l as [|x l IH]; cbn [fold_right]; [reflexivity|].
  rewrite insert_sorted_perm. constructor. exact IH.
Qed.

Lemma list_eqb_eq (a b : list Z) : list_eqb a b = true <-> a = b.
Proof.
  revert b; induction a as [|x a IH]; intros [|y b]; cbn [list_eqb];
    try (split; [discriminate | discriminate]); [tauto|].
  rewrite andb_true_iff, Z.eqb_eq, IH. split.
  - intros [-> ->]. reflexivity.
  - intros E. injection E as -> ->. auto.
Qed.

Lemma is_permutation_perm (n : nat) (order : list Z) :
  is_permutation n order = true -> Permutation order (range (Z.of_nat n)).
Proof.
  unfold is_permutation. rewrite list_eqb_eq. intros E.
  rewrite <- E. symmetry. apply sorted_perm.
Qed.

Lemma perm_range_length (n : nat) (order : list Z) :
  Permutation order (range (Z.of_nat n)) -> length order = n.
Proof.
  intros H. rewrite (Permutation_length H). apply range_length.
Qed.

Lemma perm_range_In (n : nat) (order : list Z) (i : Z) :
  Permutation order (range (Z.of_nat n)) -> In i order ->
  (Z.to_nat i < n)%nat /\ 0 <= i.
Proof.
  intros H Hi. apply (Permutation_in _ H), range_spec in Hi. lia.
Qed.

Lemma map_nth_range {A : Type} (l : list A) (d : A) :
  map (fun i => nth (Z.to_nat i) l d) (range (Z.of_nat (length l))) = l.
Proof.
  unfold range. rewrite Nat2Z.id, map_map.
  apply (nth_ext _ _ d d).
  - rewrite length_map, length_seq. reflexivity.
  - intros k Hk. rewrite length_map, length_seq in Hk.
    rewrite (nth_indep _ d (nth (Z.to_nat (Z.of_nat 0)) l d))
      by (rewrite length_map, length_seq; exact Hk).
    rewrite (map_nth (fun x => nth (Z.to_nat (Z.of_nat x)) l d)).
    rewrite seq_nth by exact Hk. rewrite Nat2Z.id. reflexivity.
Qed.

Lemma permute_index_length (order l : list Z) :
  length (permute_index order l) = length order.
Proof. unfold permute_index. apply length_map. Qed.

Lemma permute_index_perm (order l : list Z) :
  Permutation order (range (Z.of_nat (length l))) ->
  Permutation (permute_index order l) l.
Proof.
  intros H. unfold permute_index.
  rewrite (Permutation_map _ H). rewrite map_nth_range. reflexivity.
Qed.

Lemma prod_Permutation (a b : list Z) : Permutation a b -> prod a = prod b.
Proof.
  unfold prod. induction 1; cbn [fold_right]; try lia; congruence.
Qed.

Lemma permute_index_identity (l : list Z) :
  permute_index (range (Z.of_nat (length l))) l = l.
Proof. unfold permute_index. apply map_nth_range. Qed.

Lemma nth_permute_index (order l : list Z) (i : nat) :
  (i < length order)%nat ->
  nth i (permute_index order l) 0 = nth (Z.to_nat (nth i order 0)) l 0.
Proof.
  intros H. unfold permute_index.
  rewrite (nth_indep _ 0 (nth (Z.to_nat 0) l 0)) by (rewrite length_map; exact H).
  rewrite (map_nth (fun x => nth (Z.to_nat x) l 0)). reflexivity.
Qed.

(** Permuting by [p] and then by an order [q] that undoes [p] gives the
    list back. *)
Lemma permute_index_inverse (n : nat) (p q l : list Z) :
  length l = n -> length p = n ->
  Permutation q (range (Z.of_nat n)) ->
  inverse_order n p q ->
  permute_index q (permute_index p l) = l.
Proof.
  intros Hl Hp Hperm Hinv.
  pose proof (perm_range_length n q Hperm) as Hq.
  apply (nth_ext _ _ 0 0).
  - rewrite permute_index_length. congruence.
  - intros i Hi. rewrite permute_index_length in Hi.
    rewrite nth_permute_index by exact Hi.
    destruct (Hinv i ltac:(lia)) as [Hpq _].
    destruct (perm_range_In n q (nth i q 0) Hperm) as [L _];
      [apply nth_In; exact Hi|].
    rewrite nth_permute_index by lia. rewrite Hpq, Nat2Z.id. reflexivity.
Qed.

Lemma combine_as_map (a b : list Z) :
  length a = length b ->
  combine a b
  = map (fun i => (nth (Z.to_nat i) a 0, nth (Z.to_nat i) b 0))
        (range (Z.of_nat (length a))).
Proof.
  intros H. unfold range. rewrite Nat2Z.id, map_map.
  apply (nth_ext _ _ (0, 0) (0, 0)).
  - rewrite length_combine, length_map, length_seq. lia.
  - intros k Hk. rewrite length_combine in Hk.
    rewrite combine_nth by exact H.
    rewrite (nth_indep _ (0, 0)
               (nth (Z.to_nat (Z.of_nat 0)) a 0, nth (Z.to_nat (Z.of_nat 0)) b 0))
      by (rewrite length_map, length_seq; lia).
    rewrite (map_nth (fun x => (nth (Z.to_nat (Z.of_nat x)) a 0,
                                nth (Z.to_nat (Z.of_nat x)) b 0))).
    rewrite seq_nth by lia. rewrite Nat2Z.id. reflexivity.
Qed.

Lemma combine_map_same {A B C : Type} (f : A -> B) (g : A -> C) (l : list A) :
  combine (map f l) (map g l) = map (fun x => (f x, g x)) l.
Proof. induction l as [|x l IH]; cbn [map combine]; congruence. Qed.

(** The dot product is unchanged when index and strides are permuted
    alike. *)
Lemma dot_permute (order index strides : list Z) :
  length index = length strides ->
  Permutation order (range (Z.of_nat (length index))) ->
  dot (permute_index order index) (permute_index order strides)
  = dot index strides.
Proof.
  intros Hlen Hperm. rewrite !dot_zsum. unfold permute_index.
  rewrite combine_map_same, (combine_as_map index strides Hlen), !map_map.
  apply zsum_Permutation, Permutation_map, Hperm.
Qed.

Lemma in_bounds_nth (index shape : list Z) :
  in_bounds index shape ->
  forall k, (k < length shape)%nat -> 0 <= nth k index 0 < nth k shape 0.
Proof.
  unfold in_bounds. induction 1 as [|i s index shape His _ IH]; intros k Hk;
    simpl in Hk; [lia|].
  destruct k as [|k]; [exact His | apply IH; lia].
Qed.

Lemma in_bounds_of_nth (index shape : list Z) :
  length index = length shape ->
  (forall k, (k < length shape)%nat -> 0 <= nth k index 0 < nth k shape 0) ->
  in_bounds index shape.
Proof.
  unfold in_bounds. revert shape; induction index as [|i index IH];
    intros [|s shape] Hlen H; simpl in Hlen; try discriminate; constructor.
  - apply (H 0%nat). simpl. lia.
  - apply IH; [congruence|]. intros k Hk. apply (H (S k)). simpl. lia.
Qed.

Lemma in_bounds_permute (order index shape : list Z) :
  in_bounds index shape ->
  Permutation order (range (Z.of_nat (length shape))) ->
  in_bounds (permute_index order index) (permute_index order shape).
Proof.
  intros Hb Hperm. apply in_bounds_of_nth.
  - rewrite !permute_index_length. reflexivity.
  - intros k Hk. rewrite permute_index_length in Hk.
    rewrite !nth_permute_index by exact Hk.
    apply in_bounds_nth; [exact Hb|].
    apply (perm_range_In _ order); [exact Hperm | apply nth_In, Hk].
Qed.

(** ** [TensorData.index], [get] and [set] *)

Lemma check_bounds_ok (aindex shape rest : list Z) :
  forall i : nat,
    (forall k, (k < length rest)%nat ->
       0 <= nth k rest 0 < nth (i + k) shape 0) ->
    TensorData.check_bounds rest i aindex shape = Ok tt.
Proof.
  induction rest as [|ind tl IH]; intros i H; cbn [TensorData.check_bounds];
    [reflexivity|].
  pose proof (H 0%nat ltac:(simpl; lia)) as H0.
  rewrite Nat.add_0_r in H0. cbn [nth] in H0.
  destruct (Z.geb_spec ind (nth i shape 0)); [lia|].
  destruct (Z.ltb_spec ind 0); [lia|].
  apply IH. intros k Hk.
  replace (S i + k)%nat with (i + S k)%nat by lia.
  apply (H (S k)). simpl. lia.
Qed.

Lemma index_ok (t : TensorData.t) (index : list Z) :
  TensorData._strides t = TensorData.strides t ->
  length (TensorData.strides t) = length (TensorData.shape t) ->
  in_bounds index (TensorData.shape t) ->
  TensorData.index t (IndexSeq index) = Ok (dot index (TensorData.strides t)).
Proof.
  intros Hs Hlen Hb. unfold TensorData.index. cbv zeta.
  pose proof (in_bounds_length _ _ Hb) as Hl.
  rewrite Hl, Nat.eqb_refl. cbn [negb].
  rewrite check_bounds_ok
    by (intros k Hk; apply in_bounds_nth; [exact Hb | simpl; lia]).
  cbn [bind array]. unfold index_to_position. cbn [py_len bind].
  rewrite Hs, Hl, Hlen, Nat.eqb_refl. reflexivity.
Qed.

Lemma np_position_length (len : nat) (pos : Z) (i : nat) :
  np_position len pos = Ok i -> (i < len)%nat.
Proof.
  unfold np_position.
  destruct (Z.leb_spec 0 pos), (Z.ltb_spec pos (Z.of_nat len)); cbn [andb];
    try (intros E; injection E as <-; lia);
    destruct (Z.leb_spec (- Z.of_nat len) pos), (Z.ltb_spec pos 0); cbn [andb];
    try discriminate; intros E; injection E as <-; lia.
Qed.

Lemma list_update_length {A : Type} (l : list A) (i : nat) (v : A) :
  length (list_update l i v) = length l.
Proof.
  revert i; induction l as [|x l IH]; intros [|i]; simpl; auto.
Qed.

Lemma nth_list_update {A : Type} (l : list A) (i : nat) (v d : A) :
  (i < length l)%nat -> nth i (list_update l i v) d = v.
Proof.
  revert i; induction l as [|x l IH]; intros [|i] H; simpl in *; try lia.
  - reflexivity.
  - apply IH. lia.
Qed.

(** A value written at a position of a buffer is the value read there. *)
Lemma heap_read_write (h h' : heap) (l : loc) (pos : Z) (v : float) :
  heap_write h l pos v = Ok h' -> heap_read h' l pos = Ok v.
Proof.
  unfold heap_write, heap_read.
  destruct (np_position (length (cells h l)) pos) as [i|e] eqn:E;
    cbn [bind]; [|discriminate].
  intros H. injection H as <-. cbn [cells].
  rewrite Nat.eqb_refl, list_update_length, E. cbn [bind].
  rewrite nth_list_update by (eapply np_position_length; eauto).
  reflexivity.
Qed.

Lemma heap_write_ok (h : heap) (l : loc) (pos : Z) (v : float) :
  0 <= pos < Z.of_nat (length (cells h l)) ->
  exists h', heap_write h l pos v = Ok h'.
Proof.
  intros H. unfold heap_write, np_position.
  destruct (Z.leb_spec 0 pos), (Z.ltb_spec pos (Z.of_nat (length (cells h l))));
    try lia.
  cbn [andb bind]. eexists. reflexivity.
Qed.

(** ** [permute] *)

(** The constructor establishes [TensorData.wf]. *)
Lemma init_wf (storage : storage_arg) (shape : list Z)
  (strides : option (list Z)) (h h' : heap) (t : TensorData.t) :
  TensorData.init storage shape strides h = Ok (t, h') -> TensorData.wf t h'.
Proof.
  unfold TensorData.init. intros H.
  destruct (match storage with
            | StorageArray l => (l, h)
            | StorageSeq vals => heap_alloc h vals
            end) as [l h1].
  destruct (Nat.eqb_spec
              (length match strides with
                      | Some s => s
                      | None => strides_from_shape shape
                      end) (length shape)) as [E|NE];
    cbn [negb] in H; [|discriminate].
  destruct (Z.eqb_spec (Z.of_nat (length (cells h1 l))) (prod shape)) as [E'|NE'];
    [|discriminate].
  injection H as <- <-. unfold TensorData.wf.
  cbn [TensorData._storage TensorData._strides TensorData._shape
       TensorData.strides TensorData.dims TensorData.size TensorData.shape].
  repeat split; assumption.
Qed.

Lemma permute_ok (t : TensorData.t) (order : list Z) (h : heap) :
  TensorData.wf t h ->
  is_permutation (length (TensorData.shape t)) order = true ->
  exists pt,
    TensorData.permute t order h = Ok (pt, h) /\
    TensorData._storage pt = TensorData._storage t /\
    TensorData.shape pt = permute_index order (TensorData.shape t) /\
    TensorData.strides pt = permute_index order (TensorData.strides t) /\
    TensorData.wf pt h.
Proof.
  intros Hwf Hperm.
  pose proof Hwf as (Hs & Hsh & Hlen & Hdims & Hsize & Hbuf).
  pose proof (is_permutation_perm _ _ Hperm) as HP.
  unfold TensorData.permute.
  unfold is_permutation in Hperm. rewrite Hperm. cbn [negb].
  destruct (list_eqb order (range (Z.of_nat (length (TensorData.shape t)))))
    eqn:Eid.
  - apply list_eqb_eq in Eid. exists t. subst order.
    repeat split; try assumption.
    + symmetry. apply permute_index_identity.
    + rewrite <- Hlen. symmetry. apply permute_index_identity.
  - fold (permute_index order (TensorData.shape t)).
    fold (permute_index order (TensorData.strides t)).
    unfold TensorData.init.
    rewrite !permute_index_length, Nat.eqb_refl. cbn [negb].
    assert (Hprod : prod (permute_index order (TensorData.shape t))
                    = prod (TensorData.shape t))
      by (apply prod_Permutation, permute_index_perm, HP).
    rewrite Hprod, Hbuf, Hsize, Z.eqb_refl.
    eexists. split; [reflexivity|].
    unfold TensorData.wf.
    cbn [TensorData._storage TensorData._strides TensorData._shape
         TensorData.strides TensorData.dims TensorData.size TensorData.shape].
    rewrite !permute_index_length, Hprod. repeat split; congruence.
Qed.

(** C6.  For a tensor [t] as its constructor leaves it, an order [p] that
    permutes its dimensions and an order [q] that undoes [p]: both [permute]
    calls succeed and leave the heap as it is, the tensor after the two has
    the shape and the strides of [t], and the permuted view holds the same
    buffer as [t], so that a [set] through the view at the permuted
    coordinate is the very [set] through [t] at the coordinate, and the value
    it stores is the value [get] reads through [t]. *)
Theorem permute_round_trip_shares_storage
  (t : TensorData.t) (p q : list Z) (h : heap) :
  TensorData.wf t h ->
  is_permutation (length (TensorData.shape t)) p = true ->
  is_permutation (length (TensorData.shape t)) q = true ->
  inverse_order (length (TensorData.shape t)) p q ->
  exists pt t',
    TensorData.permute t p h = Ok (pt, h) /\
    TensorData.permute pt q h = Ok (t', h) /\
    TensorData.shape t' = TensorData.shape t /\
    TensorData.strides t' = TensorData.strides t /\
    TensorData._storage pt = TensorData._storage t /\
    forall (index : list Z) (val : float) (h0 : heap),
      in_bounds index (TensorData.shape t) ->
      TensorData.set pt (IndexSeq (permute_index p index)) val h0
      = TensorData.set t (IndexSeq index) val h0 /\
      (0 <= dot index (TensorData.strides t)
         < Z.of_nat (length (cells h0 (TensorData._storage t))) ->
       exists h1,
         TensorData.set pt (IndexSeq (permute_index p index)) val h0 = Ok h1) /\
      (forall h1,
         TensorData.set pt (IndexSeq (permute_index p index)) val h0 = Ok h1 ->
         TensorData.get t (IndexSeq index) h1 = Ok val).
Proof.
  intros Hwf Hp Hq Hinv.
  pose proof Hwf as (Hs & Hsh & Hlen & Hdims & Hsize & Hbuf).
  pose proof (is_permutation_perm _ _ Hp) as HPp.
  pose proof (is_permutation_perm _ _ Hq) as HPq.
  pose proof (perm_range_length _ _ HPp) as Hlp.
  destruct (permute_ok t p h Hwf Hp) as (pt & Ept & Hsto & Hshp & Hstr & Hwfpt).
  assert (Hq' : is_permutation (length (TensorData.shape pt)) q = true)
    by (rewrite Hshp, permute_index_length, Hlp; exact Hq).
  destruct (permute_ok pt q h Hwfpt Hq') as (t' & Et' & _ & Hshp' & Hstr' & _).
  exists pt, t'. repeat (split; [assumption|]).
  split; [| split; [| split; [exact Hsto|]]].
  - rewrite Hshp', Hshp. eapply permute_index_inverse; eauto.
  - rewrite Hstr', Hstr. eapply permute_index_inverse; eauto.
  - intros index val h0 Hb.
    pose proof Hwfpt as (Hs' & _ & Hlen' & _).
    assert (Hset : TensorData.set pt (IndexSeq (permute_index p index)) val h0
                   = TensorData.set t (IndexSeq index) val h0).
    { unfold TensorData.set.
      rewrite (index_ok pt), (index_ok t); try assumption.
      - rewrite Hstr, Hsto, dot_permute; [reflexivity | |].
        + rewrite (in_bounds_length _ _ Hb). congruence.
        + rewrite (in_bounds_length _ _ Hb). exact HPp.
      - rewrite Hshp. apply in_bounds_permute; assumption. }
    split; [exact Hset | split].
    + intros Hpos. rewrite Hset. unfold TensorData.set.
      rewrite (index_ok t) by assumption. cbn [bind].
      apply heap_write_ok, Hpos.
    + intros h1 H1. rewrite Hset in H1. unfold TensorData.set in H1.
      unfold TensorData.get. rewrite (index_ok t) in * by assumption.
      cbn [bind] in *. eapply heap_read_write, H1.
Qed.

Lemma permute_round_trip_shares_storage_witness :
  exists pt h1,
    TensorData.permute example_tensor [1; 0] example_heap = Ok (pt, example_heap) /\
    TensorData.set pt (IndexSeq [2; 1]) 9%float example_heap = Ok h1 /\
    TensorData.get example_tensor (IndexSeq [1; 2]) h1 = Ok 9%float.
Proof.
  destruct (permute_round_trip_shares_storage
              example_tensor [1; 0] [1; 0] example_heap)
    as (pt & t' & E1 & _ & _ & _ & _ & Hset).
  - unfold TensorData.wf. cbn. repeat split; reflexivity.
  - reflexivity.
  - reflexivity.
  - intros [|[|i]] Hi; cbn in *; try lia; split; reflexivity.
  - destruct (Hset [1; 2] 9%float example_heap) as (_ & Hex & Hget).
    + constructor; [lia | constructor; [lia | constructor]].
    + destruct Hex as [h1 H1]; [cbn; lia|].
      exists pt, h1. split; [exact E1 | split; [exact H1 | apply Hget, H1]].
Defined.

(** ** [TensorData.index] on a bare int *)

(** C8.  On a one dimensional tensor, [index] called with a bare int within
    the bounds passes the validation, which reads the int as a 1-tuple, and
    then hands [array(index)], an array without dimensions, to
    [index_to_position], whose [len] raises a [TypeError]: no position is
    returned.  The same coordinate as a 1-tuple gives [i * strides[0]]. *)
Theorem index_bare_int_raises_TypeError (t : TensorData.t) (i : Z) :
  length (TensorData.shape t) = 1%nat ->
  length (TensorData._strides t) = 1%nat ->
  0 <= i < nth 0 (TensorData.shape t) 0 ->
  TensorData.index t (IndexInt i) = Raise TypeError /\
  TensorData.index t (IndexSeq [i]) = Ok (i * nth 0 (TensorData._strides t) 0).
Proof.
  intros Hshape Hstrides Hi. unfold TensorData.index. cbv zeta.
  rewrite Hshape. cbn [length Nat.eqb negb andb TensorData.check_bounds].
  destruct (Z.geb_spec i (nth 0 (TensorData.shape t) 0)); [lia|].
  destruct (Z.ltb_spec i 0); [lia|].
  cbn [bind array]. split; [reflexivity|].
  unfold index_to_position. cbn [py_len bind length].
  rewrite Hstrides. cbn [Nat.eqb negb].
  destruct (TensorData._strides t) as [|s [|s' tl]]; try discriminate.
  unfold dot. cbn [combine fold_left fst snd nth]. f_equal; lia.
Qed.

Lemma index_bare_int_raises_TypeError_witness :
  TensorData.index example_vector (IndexInt 1) = Raise TypeError /\
  TensorData.index example_vector (IndexSeq [1]) = Ok (1 * 1).
Proof.
  apply (index_bare_int_raises_TypeError example_vector 1).
  - reflexivity.
  - reflexivity.
  - cbn. lia.
Defined.

(** C10.  On a tensor without dimensions, [index] called with a bare int
    raises the [IndexingError] of the dimensionality check: the index has
    one entry and [self.shape] none, whatever the local [shape] was set
    to. *)
Theorem index_int_zero_dim_raises_IndexingError (t : TensorData.t) (i : Z) :
  TensorData.shape t = [] ->
  TensorData.index t (IndexInt i) = Raise (IndexingError (MustBeSizeOf [i] [])) /\
  is_IndexingError (TensorData.index t (IndexInt i)) = true.
Proof.
  intros Hshape. unfold TensorData.index. rewrite Hshape. split; reflexivity.
Qed.

Lemma index_int_zero_dim_raises_IndexingError_witness :
  TensorData.index example_scalar (IndexInt 0)
  = Raise (IndexingError (MustBeSizeOf [0] [])) /\
  is_IndexingError (TensorData.index example_scalar (IndexInt 0)) = true.
Proof.
  apply (index_int_zero_dim_raises_IndexingError example_scalar 0).
  reflexivity.
Defined.

(** ** Scalar functions *)

Section WithOperators.

(** The functions of the module [operators], whatever they are. *)
Variable ops : operators.t.

(** C7.  Whatever the operators, the context, the operands and the incoming
    gradient, the backward of [LT], of [GT] and of [EQ] returns the pair
    (0.0, 0.0), also on the context a forward call on any two operands
    leaves. *)
Theorem comparison_backward_zero (ctx : Context) (a b d_output : pyval) :
  backward ops LT ctx d_output = Ok (Tuple [PyFloat 0%float; PyFloat 0%float]) /\
  backward ops GT ctx d_output = Ok (Tuple [PyFloat 0%float; PyFloat 0%float]) /\
  backward ops EQ ctx d_output = Ok (Tuple [PyFloat 0%float; PyFloat 0%float]) /\
  (forall cls ctx' c,
     In cls [LT; GT; EQ] ->
     forward ops cls ctx [a; b] = Ok (ctx', c) ->
     _backward ops cls ctx' d_output = Ok [PyFloat 0%float; PyFloat 0%float]).
Proof.
  repeat split; try reflexivity.
  intros cls ctx' c Hcls _.
  cbn [In] in Hcls. destruct Hcls as [<-|[<-|[<-|[]]]]; reflexivity.
Qed.

Lemma collect_raw (vals : list ScalarLike) :
  forall raw scalars raw' scalars',
    collect vals raw scalars = Ok (raw', scalars') ->
    raw' = raw ++ map raw_value vals.
Proof.
  induction vals as [|v vals IH]; intros raw scalars raw' scalars' H;
    cbn [collect map] in *.
  - injection H as <- _. symmetry. apply app_nil_r.
  - destruct v as [s|n]; cbn [raw_value].
    + apply IH in H. rewrite H, <- app_assoc. reflexivity.
    + unfold Scalar_init in H. destruct (py_float n); cbn [bind] in H;
        [|discriminate].
      apply IH in H. rewrite H, <- app_assoc. reflexivity.
Qed.

(** C9, as the code has it.  [apply] hands to [forward] the arguments as
    they are, the payload of a [Scalar] and a bare number itself, not the
    float payload of the leaf it promotes the number to; it succeeds exactly
    when [forward] on these values returns a float.  [Add.apply(1, 2)] on two
    bare ints fails the assertion, since [forward] returns the int 3.  For
    [Add] on two bare numbers: a bare int too large for a float makes
    [apply] raise [OverflowError] when it promotes the number; otherwise the
    assertion fails when both are ints, and [apply] returns the float sum
    as soon as one of them is a float. *)
Theorem apply_forwards_raw_values :
  (forall vals raw scalars,
     collect vals [] [] = Ok (raw, scalars) -> raw = map raw_value vals) /\
  (forall cls vals raw scalars ctx c,
     collect vals [] [] = Ok (raw, scalars) ->
     forward ops cls (mkContext false []) (map raw_value vals) = Ok (ctx, c) ->
     apply ops cls vals
     = if is_float c
       then Scalar_init c (Some (MkScalarHistory cls ctx scalars))
       else Raise AssertionError) /\
  Scalar_init (PyInt 1) None = Ok (MkScalar 1%float None) /\
  forward ops Add (mkContext false []) [PyInt 1; PyInt 2]
  = Ok (mkContext false [], PyInt 3) /\
  apply ops Add [OfNumber (PyInt 1); OfNumber (PyInt 2)] = Raise AssertionError /\
  (forall a b,
     apply ops Add [OfNumber a; OfNumber b]
     = match py_float a, py_float b with
       | Ok fa, Ok fb =>
           if is_float a || is_float b
           then Ok (MkScalar (fa + fb)%float
                      (Some (MkScalarHistory Add (mkContext false [])
                               [MkScalar fa None; MkScalar fb None])))
           else Raise AssertionError
       | Raise e, _ => Raise e
       | Ok _, Raise e => Raise e
       end) /\
  apply ops Add [OfNumber (PyInt (2 ^ 1024)); OfNumber (PyFloat 1%float)]
  = Raise OverflowError.
Proof.
  split; [| split; [| split; [| split; [| split; [| split]]]]];
    try reflexivity.
  - intros vals raw scalars H. apply collect_raw in H. exact H.
  - intros cls vals raw scalars ctx c Hc Hf.
    pose proof (collect_raw _ _ _ _ _ Hc) as Hraw. cbn [app] in Hraw.
    unfold apply. rewrite Hc. cbn [bind fst snd]. unfold _forward.
    rewrite Hraw, Hf. reflexivity.
  - intros a b. unfold apply. cbn [collect]. unfold Scalar_init.
    destruct (py_float a) as [fa|ea] eqn:Ha; cbn [bind]; [|reflexivity].
    destruct (py_float b) as [fb|eb] eqn:Hb; cbn [bind]; [|reflexivity].
    cbn [app fst snd]. unfold _forward. cbn [forward].
    unfold py_add, py_arith.
    destruct a as [x|x], b as [y|y]; cbn [is_float orb bind fst snd];
      try reflexivity;
      rewrite ?Ha, ?Hb; cbn [bind fst snd is_float py_float]; reflexivity.
Qed.

End WithOperators.

(** [Add.apply(1, 2.0)] succeeds although its first argument is a bare
    int, whatever the operators are. *)
Lemma Add_apply_int_and_float_succeeds :
  (fun ops : operators.t =>
     apply ops Add [OfNumber (PyInt 1); OfNumber (PyFloat 2%float)])
  = (fun _ =>
       Ok (MkScalar 3%float
             (Some (MkScalarHistory Add (mkContext false [])
                      [MkScalar 1%float None; MkScalar 2%float None])))).
Proof. reflexivity. Qed.

(** * Further properties of the indexing engine *)

(** ** [to_index] beyond the ordinals of the tensor *)

Lemma array_set_fail (a : list Z) (i : nat) (v : Z) :
  (length a <= i)%nat -> array_set a i v = Raise IndexError.
Proof.
  revert i; induction a as [|x a IH]; intros i H; [destruct i; reflexivity|].
  destruct i as [|i]; simpl in H; [lia|].
  cbn [array_set]. rewrite IH by lia. reflexivity.
Qed.

Lemma unravel_mod (rs : list Z) :
  all_positive rs -> forall o, unravel rs (o mod prod rs) = unravel rs o.
Proof.
  induction 1 as [|s r Hs Hr IH]; intros o; cbn [unravel]; [reflexivity|].
  change (prod (s :: r)) with (s * prod r).
  pose proof (prod_pos r Hr) as HP.
  rewrite Z.rem_mul_r by lia.
  pose proof (Z.mod_pos_bound o s Hs) as Hm.
  replace (o mod s + s * ((o / s) mod prod r))
    with (o mod s + ((o / s) mod prod r) * s) by ring.
  rewrite Z.mod_add, Z.div_add by lia.
  rewrite Z.mod_mod by lia.
  rewrite (Z.div_small (o mod s) s) by lia.
  rewrite Z.add_0_l, IH. reflexivity.
Qed.

(** X1.  For a shape with positive dimensions whose size fits an [int32],
    and an [out_index] at least as long as the shape, [to_index] succeeds
    for every ordinal that fits an [int32], also one outside [0, size): it
    writes a coordinate within the bounds of the shape into the first
    entries and keeps the entries of [out_index] past the dimensions of the
    shape. *)
Theorem to_index_any_ordinal (o : Z) (shape out_index : list Z) :
  is_int32 o -> is_int32 (prod shape) ->
  all_positive shape -> (length shape <= length out_index)%nat ->
  exists index,
    to_index o shape out_index = Ok (index ++ skipn (length shape) out_index) /\
    in_bounds index shape.
Proof.
  intros _ _ Hpos Hlen. exists (to_index_spec o shape). split.
  - unfold to_index. rewrite to_index_loop_spec by (auto; lia).
    rewrite firstn_all. reflexivity.
  - apply to_index_spec_in_bounds, Hpos.
Qed.

Lemma to_index_any_ordinal_witness :
  exists index,
    to_index (-1) [2; 3] [7; 7; 7] = Ok (index ++ skipn 2 [7; 7; 7]) /\
    in_bounds index [2; 3].
Proof.
  apply (to_index_any_ordinal (-1) [2; 3] [7; 7; 7]).
  - unfold is_int32. lia.
  - unfold is_int32. cbn. lia.
  - repeat constructor.
  - simpl. lia.
Defined.

(** X2.  For a shape with positive dimensions whose size fits an [int32],
    [to_index] depends on an ordinal that fits an [int32] modulo the size
    only: the ordinal and its remainder by the size, which fits as well,
    give the same coordinate. *)
Theorem to_index_wraps_modulo_size (o : Z) (shape out_index : list Z) :
  is_int32 o -> is_int32 (prod shape) ->
  all_positive shape -> (length shape <= length out_index)%nat ->
  is_int32 (o mod prod shape) /\
  to_index o shape out_index = to_index (o mod prod shape) shape out_index.
Proof.
  intros _ Hsize Hpos Hlen. split.
  { pose proof (prod_pos shape Hpos) as HP.
    pose proof (Z.mod_pos_bound o (prod shape) HP).
    unfold is_int32 in *. lia. }
  unfold to_index.
  rewrite !to_index_loop_spec by (auto; lia).
  rewrite firstn_all. unfold to_index_spec.
  rewrite <- (prod_rev shape), unravel_mod by (apply all_positive_rev, Hpos).
  reflexivity.
Qed.

Lemma to_index_wraps_modulo_size_witness :
  is_int32 (7 mod prod [2; 3]) /\
  to_index 7 [2; 3] [0; 0] = to_index (7 mod prod [2; 3]) [2; 3] [0; 0].
Proof.
  apply (to_index_wraps_modulo_size 7 [2; 3] [0; 0]).
  - unfold is_int32. lia.
  - unfold is_int32. cbn. lia.
  - repeat constructor.
  - simpl. lia.
Defined.

(** X3.  With an [out_index] shorter than the shape the first write of
    [to_index], at the last dimension, is out of range: [IndexError],
    whatever the dimensions and the ordinal, as long as they fit an
    [int32], so that the remainder before the write is computed. *)
Theorem to_index_short_out_index (o : Z) (shape out_index : list Z) :
  is_int32 o -> Forall is_int32 shape ->
  (length out_index < length shape)%nat ->
  to_index o shape out_index = Raise IndexError.
Proof.
  intros _ _ H. unfold to_index.
  destruct (length shape) as [|n] eqn:E; [lia|].
  cbn [to_index_loop]. rewrite array_set_fail by lia. reflexivity.
Qed.

Lemma to_index_short_out_index_witness :
  to_index 1 [2; 3] [0] = Raise IndexError.
Proof.
  apply (to_index_short_out_index 1 [2; 3] [0]).
  - unfold is_int32. lia.
  - repeat constructor; lia.
  - simpl. lia.
Defined.

(** ** Contiguous strides *)

Lemma offsets_snoc (rs : list Z) (s off : Z) :
  offsets (rs ++ [s]) off = offsets rs off ++ [prod rs * off].
Proof.
  revert off; induction rs as [|x r IH]; intros off; cbn [app offsets].
  - change (prod []) with 1. rewrite Z.mul_1_l. reflexivity.
  - rewrite IH. change (prod (x :: r)) with (x * prod r).
    replace (prod r * (x * off)) with (x * prod r * off) by ring. reflexivity.
Qed.

Lemma strides_from_shape_step (s : Z) (rest : list Z) :
  strides_from_shape (s :: rest) = prod rest :: strides_from_shape rest.
Proof.
  rewrite !strides_from_shape_offsets. cbn [rev].
  rewrite offsets_snoc, rev_app_distr. cbn [rev app].
  rewrite prod_rev, Z.mul_1_r. reflexivity.
Qed.

(** X4.  The stride of a dimension is the product of the sizes of the
    dimensions after it: the strides of [s :: rest] are the product of
    [rest] followed by the strides of [rest], and the size [s] of the first
    dimension plays no part; the shape without dimensions has no stride. *)
Theorem strides_from_shape_cons (s : Z) (rest : list Z) :
  strides_from_shape (s :: rest) = prod rest :: strides_from_shape rest /\
  strides_from_shape [] = [].
Proof. split; [apply strides_from_shape_step | reflexivity]. Qed.

Lemma dot_contiguous (index shape : list Z) :
  length index = length shape ->
  dot index (strides_from_shape shape) = ravel (rev shape) (rev index).
Proof.
  intros H. rewrite strides_from_shape_offsets.
  rewrite <- (rev_involutive index) at 1.
  rewrite dot_rev by (rewrite offsets_length, !length_rev; exact H).
  rewrite dot_offsets by (rewrite !length_rev; exact H). lia.
Qed.

Lemma in_bounds_all_positive (index shape : list Z) :
  in_bounds index shape -> all_positive shape.
Proof.
  unfold in_bounds, all_positive.
  induction 1; constructor; [lia | assumption].
Qed.

(** X5.  Under the contiguous strides [to_index] and [index_to_position]
    undo each other: the coordinate of an ordinal below the size sits at the
    position that is the ordinal, and a coordinate within bounds has a
    position below the size whose coordinate it is. *)
Theorem to_index_position_round_trip (shape out_index : list Z) :
  length out_index = length shape ->
  (forall o index,
     all_positive shape -> 0 <= o < prod shape ->
     to_index o shape out_index = Ok index ->
     index_to_position (Arr1 index) (strides_from_shape shape) = Ok o) /\
  (forall index,
     in_bounds index shape ->
     exists p,
       index_to_position (Arr1 index) (strides_from_shape shape) = Ok p /\
       0 <= p < prod shape /\
       to_index p shape out_index = Ok index).
Proof.
  intros Hlen. split.
  - intros o index Hpos Ho E. rewrite to_index_ok in E by assumption.
    injection E as <-. apply position_of_to_index_spec; assumption.
  - intros index Hb.
    pose proof (in_bounds_all_positive _ _ Hb) as Hpos.
    pose proof (in_bounds_length _ _ Hb) as Hl.
    destruct (to_index_spec_surj shape index Hb) as [Hr Hs].
    exists (ravel (rev shape) (rev index)). split; [| split; [exact Hr|]].
    + unfold index_to_position. cbn [py_len bind].
      rewrite Hl, strides_from_shape_length, Nat.eqb_refl. cbn [negb].
      rewrite dot_contiguous by exact Hl. reflexivity.
    + rewrite to_index_ok by assumption. rewrite Hs. reflexivity.
Qed.

Lemma to_index_position_round_trip_witness :
  (forall o index,
     all_positive [2; 3] -> 0 <= o < prod [2; 3] ->
     to_index o [2; 3] [0; 0] = Ok index ->
     index_to_position (Arr1 index) (strides_from_shape [2; 3]) = Ok o) /\
  (forall index,
     in_bounds index [2; 3] ->
     exists p,
       index_to_position (Arr1 index) (strides_from_shape [2; 3]) = Ok p /\
       0 <= p < prod [2; 3] /\
       to_index p [2; 3] [0; 0] = Ok index).
Proof.
  apply (to_index_position_round_trip [2; 3] [0; 0]). reflexivity.
Defined.

(** ** [is_contiguous] *)

Lemma is_contiguous_loop_Sorted (strides : list Z) :
  forall last,
    TensorData.is_contiguous_loop strides last = true
    <-> Sorted Z.ge (last :: strides).
Proof.
  induction strides as [|s r IH]; intros last;
    cbn [TensorData.is_contiguous_loop].
  - split; [intros _; repeat constructor | reflexivity].
  - destruct (Z.gtb_spec s last) as [G|L].
    + split; [discriminate|]. intros H.
      apply Sorted_inv in H. destruct H as [_ H]. apply HdRel_inv in H. lia.
    + rewrite IH. split.
      * intros H. constructor; [exact H | constructor; lia].
      * intros H. apply Sorted_inv in H. tauto.
Qed.

(** X6.  [is_contiguous] answers true exactly when the strides never
    increase from one dimension to the next and the first stride is at most
    10^9, the value [last] starts from. *)
Theorem is_contiguous_iff_Sorted (t : TensorData.t) :
  TensorData.is_contiguous t = true
  <-> Sorted Z.ge (1000000000 :: TensorData._strides t).
Proof. apply is_contiguous_loop_Sorted. Qed.

Lemma is_contiguous_loop_default (shape : list Z) :
  all_positive shape ->
  TensorData.is_contiguous_loop (strides_from_shape shape) (prod shape) = true.
Proof.
  induction 1 as [|s r Hs Hr IH]; [reflexivity|].
  rewrite strides_from_shape_step. cbn [TensorData.is_contiguous_loop].
  change (prod (s :: r)) with (s * prod r).
  pose proof (prod_pos r Hr).
  destruct (Z.gtb_spec (prod r) (s * prod r)); [nia | exact IH].
Qed.

(** X7.  A tensor built with the default strides over a shape with positive
    dimensions is reported contiguous exactly when the product of the
    dimensions after the first, its largest stride, is at most 10^9. *)
Theorem is_contiguous_default_strides
  (storage : storage_arg) (shape : list Z) (h h' : heap) (t : TensorData.t) :
  all_positive shape ->
  TensorData.init storage shape None h = Ok (t, h') ->
  TensorData.is_contiguous t = (prod (tl shape) <=? 1000000000).
Proof.
  intros Hpos Hinit.
  destruct (init_default_strides _ _ _ _ _ Hinit) as (_ & Hstrides & _).
  destruct (init_wf _ _ _ _ _ _ Hinit) as (Hs & _).
  unfold TensorData.is_contiguous. rewrite Hs, Hstrides.
  destruct Hpos as [|s r Hs' Hr]; [reflexivity|].
  rewrite strides_from_shape_step. cbn [TensorData.is_contiguous_loop tl].
  destruct (Z.gtb_spec (prod r) 1000000000), (Z.leb_spec (prod r) 1000000000);
    try lia; try reflexivity.
  apply is_contiguous_loop_default, Hr.
Qed.

Lemma is_contiguous_default_strides_witness :
  TensorData.is_contiguous example_tensor = (prod (tl [2; 3]) <=? 1000000000).
Proof.
  apply (is_contiguous_default_strides
           (StorageSeq [1; 2; 3; 4; 5; 6]%float) [2; 3]
           (mkHeap (fun _ => []) 0%nat) example_heap).
  - repeat constructor.
  - reflexivity.
Defined.

(** ** [shape_broadcast] *)

Lemma shape_broadcast_unfold (shape1 shape2 : list Z) :
  shape_broadcast shape1 shape2 = shape_broadcast_spec shape1 shape2.
Proof.
  unfold shape_broadcast, shape_broadcast_spec.
  rewrite pad_shapes_left_pad. cbv zeta.
  rewrite shape_broadcast_loop_spec. reflexivity.
Qed.

Lemma left_pad_length (n : nat) (shape : list Z) :
  (length shape <= n)%nat -> length (left_pad n shape) = n.
Proof.
  intros H. unfold left_pad. rewrite length_app, repeat_length. lia.
Qed.

Lemma shape_broadcast_ok_length (shape1 shape2 result : list Z) :
  shape_broadcast shape1 shape2 = Ok result ->
  length result = Nat.max (length shape1) (length shape2).
Proof.
  rewrite shape_broadcast_unfold. unfold shape_broadcast_spec. cbv zeta.
  destruct (forallb _ _); [|discriminate].
  intros E. injection E as <-.
  rewrite length_map, length_combine, !left_pad_length by lia. lia.
Qed.

(** X8.  When [shape_broadcast] succeeds, its result has as many
    dimensions as the longer of the two shapes. *)
Theorem shape_broadcast_length (shape1 shape2 result : list Z) :
  shape_broadcast shape1 shape2 = Ok result ->
  length result = Nat.max (length shape1) (length shape2).
Proof. apply shape_broadcast_ok_length. Qed.

Lemma shape_broadcast_length_witness :
  length [5; 3] = Nat.max (length [1; 3]) (length [5; 1]).
Proof.
  apply (shape_broadcast_length [1; 3] [5; 1] [5; 3]). reflexivity.
Defined.

Lemma compatible_dims_sym (d1 d2 : Z) :
  compatible_dims d1 d2 = compatible_dims d2 d1.
Proof.
  unfold compatible_dims. rewrite (Z.eqb_sym d1 d2).
  destruct (d2 =? d1), (d1 =? 1), (d2 =? 1); reflexivity.
Qed.

Lemma map_combine_sym {A : Type} (f : Z -> Z -> A) (a b : list Z) :
  (forall x y, f x y = f y x) ->
  map (fun p => f (fst p) (snd p)) (combine a b)
  = map (fun p => f (fst p) (snd p)) (combine b a).
Proof.
  intros Hf. revert b; induction a as [|x a IH]; intros [|y b];
    cbn [combine map fst snd]; try reflexivity.
  rewrite IH, Hf. reflexivity.
Qed.

Lemma forallb_combine_sym (f : Z -> Z -> bool) (a b : list Z) :
  (forall x y, f x y = f y x) ->
  forallb (fun p => f (fst p) (snd p)) (combine a b)
  = forallb (fun p => f (fst p) (snd p)) (combine b a).
Proof.
  intros Hf. revert b; induction a as [|x a IH]; intros [|y b];
    cbn [combine forallb fst snd]; try reflexivity.
  rewrite IH, Hf. reflexivity.
Qed.

Lemma shape_broadcast_swap (shape1 shape2 : list Z) :
  shape_broadcast shape2 shape1
  = match shape_broadcast shape1 shape2 with
    | Raise (IndexingError (CannotBroadcast a b)) =>
        Raise (IndexingError (CannotBroadcast b a))
    | r => r
    end.
Proof.
  rewrite !shape_broadcast_unfold. unfold shape_broadcast_spec. cbv zeta.
  rewrite (Nat.max_comm (length shape2) (length shape1)).
  set (a := left_pad _ shape1). set (b := left_pad _ shape2).
  rewrite (forallb_combine_sym compatible_dims b a compatible_dims_sym).
  rewrite (map_combine_sym Z.max b a Z.max_comm).
  destruct (forallb _ _); reflexivity.
Qed.

(** X9.  [shape_broadcast] does not depend on the order of its arguments:
    with the shapes exchanged it returns the same shape, or raises the same
    [IndexingError] with the two shapes of the message exchanged. *)
Theorem shape_broadcast_sym (shape1 shape2 : list Z) :
  shape_broadcast shape2 shape1
  = match shape_broadcast shape1 shape2 with
    | Raise (IndexingError (CannotBroadcast a b)) =>
        Raise (IndexingError (CannotBroadcast b a))
    | r => r
    end.
Proof. apply shape_broadcast_swap. Qed.

(** X10.  Against the shape without dimensions [shape_broadcast] never
    fails: every dimension is paired with 1 and becomes the larger of itself
    and 1, so a shape with positive dimensions comes back unchanged and a
    dimension 0 comes back as 1. *)
Theorem shape_broadcast_scalar (shape : list Z) :
  shape_broadcast shape [] = Ok (map (fun d => Z.max d 1) shape) /\
  (all_positive shape -> shape_broadcast shape [] = Ok shape).
Proof.
  assert (E : shape_broadcast shape [] = Ok (map (fun d => Z.max d 1) shape)).
  { rewrite shape_broadcast_unfold. unfold shape_broadcast_spec, left_pad.
    cbv zeta. cbn [length]. rewrite Nat.max_0_r, Nat.sub_diag, Nat.sub_0_r.
    cbn [repeat app]. rewrite app_nil_r.
    induction shape as [|d shape IH]; [reflexivity|].
    cbn [length repeat combine forallb map fst snd].
    unfold compatible_dims at 1. rewrite Z.eqb_refl, orb_true_r. cbn [andb].
    destruct (forallb _ _); [|discriminate].
    injection IH as IH. rewrite IH. reflexivity. }
  split; [exact E|]. intros Hpos. rewrite E. f_equal. clear E.
  induction Hpos as [|d l Hd _ IH]; [reflexivity|].
  cbn [map]. rewrite IH. f_equal. lia.
Qed.

(** X11.  A shape broadcasts with itself to itself. *)
Theorem shape_broadcast_same (shape : list Z) :
  shape_broadcast shape shape = Ok shape.
Proof.
  rewrite shape_broadcast_unfold. unfold shape_broadcast_spec, left_pad.
  cbv zeta. rewrite Nat.max_id, Nat.sub_diag. cbn [repeat app].
  induction shape as [|d shape IH]; [reflexivity|].
  cbn [combine forallb map fst snd].
  unfold compatible_dims at 1. rewrite Z.eqb_refl. cbn [orb andb].
  destruct (forallb _ _); [|discriminate].
  injection IH as IH. rewrite IH, Z.max_id. reflexivity.
Qed.

(** ** [broadcast_index] after [shape_broadcast] *)

Lemma Forall2_nth_rel {A B : Type} (R : A -> B -> Prop) (a : list A) (b : list B)
  (da : A) (db : B) :
  Forall2 R a b ->
  forall k, (k < length a)%nat -> R (nth k a da) (nth k b db).
Proof.
  induction 1 as [|x y a b Hxy _ IH]; intros k Hk; simpl in Hk; [lia|].
  destruct k as [|k]; [exact Hxy | apply IH; lia].
Qed.

Lemma broadcast_compatible_of_loop (pa pb : list Z) :
  length pa = length pb ->
  Forall (fun p => 1 <= p) pa ->
  forallb (fun p => compatible_dims (fst p) (snd p)) (combine pa pb) = true ->
  Forall2 (fun p b => p = 1 \/ p = b) pa
          (map (fun p => Z.max (fst p) (snd p)) (combine pa pb)).
Proof.
  revert pb; induction pa as [|p pa IH]; intros [|q pb] Hlen Hpos Hc;
    simpl in Hlen; try discriminate; cbn [combine map fst snd forallb] in *.
  - constructor.
  - apply andb_true_iff in Hc. destruct Hc as [Hpq Hc].
    inversion Hpos as [|? ? Hp Hpos']; subst.
    constructor; [| apply IH; [congruence | assumption | assumption]].
    unfold compatible_dims in Hpq.
    destruct (Z.eqb_spec p q), (Z.eqb_spec p 1), (Z.eqb_spec q 1);
      try discriminate; lia.
Qed.

Lemma left_pad_ge_1 (n : nat) (shape : list Z) :
  all_positive shape -> Forall (fun p => 1 <= p) (left_pad n shape).
Proof.
  intros H. unfold left_pad. apply Forall_app. split.
  - apply Forall_forall. intros x Hx. apply repeat_spec in Hx. lia.
  - unfold all_positive in H. rewrite Forall_forall in *.
    intros x Hx. specialize (H x Hx). lia.
Qed.

(** X12.  The shape [shape_broadcast] returns is one that each operand
    with positive dimensions can be broadcast to: the operand is not longer,
    and each of its padded dimensions is 1 or the dimension of the
    result. *)
Theorem shape_broadcast_compatible (shape1 shape2 big : list Z) :
  shape_broadcast shape1 shape2 = Ok big ->
  (all_positive shape1 -> broadcast_compatible big shape1) /\
  (all_positive shape2 -> broadcast_compatible big shape2).
Proof.
  assert (Hone : forall s1 s2 b,
             shape_broadcast s1 s2 = Ok b -> all_positive s1 ->
             broadcast_compatible b s1).
  { intros s1 s2 b E Hpos.
    pose proof (shape_broadcast_ok_length _ _ _ E) as Hlen.
    rewrite shape_broadcast_unfold in E. unfold shape_broadcast_spec in E.
    cbv zeta in E.
    destruct (forallb _ _) eqn:Hc; [|discriminate]. injection E as <-.
    split; [lia|].
    unfold padded_shape. rewrite Hlen.
    fold (left_pad (Nat.max (length s1) (length s2)) s1).
    apply broadcast_compatible_of_loop.
    - rewrite !left_pad_length by lia. reflexivity.
    - apply left_pad_ge_1, Hpos.
    - exact Hc. }
  intros E. split.
  - apply (Hone _ _ _ E).
  - apply (Hone shape2 shape1 big).
    rewrite shape_broadcast_swap, E. reflexivity.
Qed.

Lemma shape_broadcast_compatible_witness :
  (all_positive [1; 3] -> broadcast_compatible [5; 3] [1; 3]) /\
  (all_positive [5; 1] -> broadcast_compatible [5; 3] [5; 1]).
Proof.
  apply (shape_broadcast_compatible [1; 3] [5; 1] [5; 3]). reflexivity.
Defined.

Lemma broadcast_index_ok (big_index big_shape shape out_index : list Z) :
  broadcast_compatible big_shape shape ->
  (length big_shape <= length big_index)%nat ->
  (length shape <= length out_index)%nat ->
  broadcast_index big_index big_shape shape out_index
  = Ok (map (projected big_index big_shape shape) (seq 0 (length shape))
        ++ skipn (length shape) out_index).
Proof.
  intros [Hle Hcompat] Hbig Hout. unfold broadcast_index.
  destruct (Nat.eqb_spec (length shape) 0) as [E|NE].
  - rewrite E. reflexivity.
  - destruct (Nat.ltb_spec (length big_shape) (length shape)); [lia|].
    fold (padded_shape big_shape shape).
    rewrite check_compatible_ok by exact Hcompat. cbn [bind].
    rewrite (map_indices_spec big_index big_shape shape) by (auto; lia).
    reflexivity.
Qed.

Lemma nth_map_seq (f : nat -> Z) (n k : nat) :
  (k < n)%nat -> nth k (map f (seq 0 n)) 0 = f k.
Proof.
  intros H. rewrite (nth_indep _ 0 (f 0%nat)) by (rewrite length_map, length_seq; exact H).
  rewrite map_nth, seq_nth by exact H. reflexivity.
Qed.

Lemma nth_padded_shape (big_shape shape : list Z) (k : nat) :
  nth (k + (length big_shape - length shape)) (padded_shape big_shape shape) 0
  = nth k shape 0.
Proof.
  unfold padded_shape. rewrite app_nth2 by (rewrite repeat_length; lia).
  rewrite repeat_length. f_equal. lia.
Qed.

(** X13.  When [shape], with positive dimensions, is broadcast-compatible
    with [big_shape] and [big_index] is a coordinate within the bounds of
    [big_shape], [broadcast_index] succeeds and the coordinate it writes is
    within the bounds of [shape]. *)
Theorem broadcast_index_in_bounds (big_index big_shape shape out_index : list Z) :
  all_positive shape ->
  broadcast_compatible big_shape shape ->
  in_bounds big_index big_shape ->
  (length shape <= length out_index)%nat ->
  exists index,
    broadcast_index big_index big_shape shape out_index
    = Ok (index ++ skipn (length shape) out_index) /\
    in_bounds index shape.
Proof.
  intros Hpos Hcompat Hb Hout.
  pose proof (in_bounds_length _ _ Hb) as Hl.
  exists (map (projected big_index big_shape shape) (seq 0 (length shape))).
  split; [apply broadcast_index_ok; auto; lia|].
  destruct Hcompat as [Hle Hcompat].
  apply in_bounds_of_nth; [rewrite length_map, length_seq; reflexivity|].
  intros k Hk. rewrite nth_map_seq by exact Hk.
  unfold projected. cbv zeta. rewrite nth_padded_shape.
  assert (Hs : 0 < nth k shape 0).
  { unfold all_positive in Hpos. rewrite Forall_forall in Hpos.
    apply Hpos, nth_In, Hk. }
  destruct (Z.ltb_spec 1 (nth k shape 0)) as [L|G]; [|lia].
  assert (Hk' : (k + (length big_shape - length shape)
                 < length (padded_shape big_shape shape))%nat)
    by (unfold padded_shape; rewrite length_app, repeat_length; lia).
  pose proof (Forall2_nth_rel _ _ _ 0 0 Hcompat _ Hk') as Hc.
  rewrite nth_padded_shape in Hc.
  pose proof (in_bounds_nth _ _ Hb (k + (length big_shape - length shape))
                ltac:(lia)) as Hbig.
  destruct Hc as [Hc|Hc]; [lia | rewrite Hc; exact Hbig].
Qed.

Lemma broadcast_index_in_bounds_witness :
  exists index,
    broadcast_index [4; 2] [5; 3] [1; 3] [7; 7]
    = Ok (index ++ skipn (length [1; 3]) [7; 7]) /\
    in_bounds index [1; 3].
Proof.
  apply (broadcast_index_in_bounds [4; 2] [5; 3] [1; 3] [7; 7]).
  - repeat constructor.
  - split; [simpl; lia|].
    constructor; [left; reflexivity | constructor; [right; reflexivity | constructor]].
  - constructor; [lia | constructor; [lia | constructor]].
  - simpl. lia.
Defined.

(** X14.  Projecting a coordinate within bounds onto the shape it belongs
    to changes nothing: [broadcast_index] with [shape] equal to [big_shape]
    writes [big_index] itself. *)
Theorem broadcast_index_same_shape (index shape out_index : list Z) :
  in_bounds index shape -> length out_index = length shape ->
  broadcast_index index shape shape out_index = Ok index.
Proof.
  intros Hb Hout. pose proof (in_bounds_length _ _ Hb) as Hl.
  assert (Hpad : padded_shape shape shape = shape)
    by (unfold padded_shape; rewrite Nat.sub_diag; reflexivity).
  rewrite broadcast_index_ok; try lia.
  - rewrite skipn_all2, app_nil_r by lia. f_equal.
    apply (nth_ext _ _ 0 0); [rewrite length_map, length_seq; lia|].
    intros k Hk. rewrite length_map, length_seq in Hk.
    rewrite nth_map_seq by exact Hk.
    unfold projected. cbv zeta. rewrite Hpad, Nat.sub_diag, Nat.add_0_r.
    pose proof (in_bounds_nth _ _ Hb k Hk).
    destruct (Z.ltb_spec 1 (nth k shape 0)); [reflexivity | lia].
  - split; [lia|]. rewrite Hpad.
    clear. induction shape; constructor; auto.
Qed.

Lemma broadcast_index_same_shape_witness :
  broadcast_index [1; 2] [2; 3] [2; 3] [0; 0] = Ok [1; 2].
Proof.
  apply (broadcast_index_same_shape [1; 2] [2; 3] [0; 0]).
  - constructor; [lia | constructor; [lia | constructor]].
  - reflexivity.
Defined.

(** * Further properties of the tensor data store *)

(** ** The constructor *)

(** X15.  The constructor with a sequence of floats and the default strides
    never raises an [IndexingError]: it succeeds exactly when the sequence
    has as many entries as the product of the shape, and fails its last
    assertion otherwise.  On success the tensor holds a buffer of its own
    with the entries of the sequence, the buffers that existed are as they
    were, and the tensor has the invariants of [TensorData.wf]. *)
Theorem init_from_sequence (vals : list float) (shape : list Z) (h : heap) :
  (Z.of_nat (length vals) = prod shape ->
   exists t h',
     TensorData.init (StorageSeq vals) shape None h = Ok (t, h') /\
     TensorData.wf t h' /\
     TensorData.shape t = shape /\
     TensorData._storage t = next_loc h /\
     cells h' (TensorData._storage t) = vals /\
     (forall l, l <> next_loc h -> cells h' l = cells h l)) /\
  (Z.of_nat (length vals) <> prod shape ->
   TensorData.init (StorageSeq vals) shape None h = Raise AssertionError).
Proof.
  unfold TensorData.init, heap_alloc.
  rewrite strides_from_shape_length, Nat.eqb_refl. cbn [negb cells].
  rewrite Nat.eqb_refl. split; intros H.
  - rewrite H, Z.eqb_refl. eexists. eexists. split; [reflexivity|].
    unfold TensorData.wf.
    cbn [TensorData._storage TensorData._strides TensorData._shape
         TensorData.strides TensorData.dims TensorData.size TensorData.shape
         cells].
    rewrite Nat.eqb_refl, strides_from_shape_length.
    repeat split; try assumption.
    intros l Hl. destruct (Nat.eqb_spec l (next_loc h)); [contradiction | reflexivity].
  - destruct (Z.eqb_spec (Z.of_nat (length vals)) (prod shape));
      [contradiction | reflexivity].
Qed.

(** ** [index] *)

Lemma check_bounds_cases (aindex shape rest : list Z) :
  forall i : nat,
    (TensorData.check_bounds rest i aindex shape = Ok tt /\
     forall k, (k < length rest)%nat ->
       0 <= nth k rest 0 < nth (i + k) shape 0) \/
    (is_IndexingError (TensorData.check_bounds rest i aindex shape) = true /\
     exists k, (k < length rest)%nat /\
       ~ 0 <= nth k rest 0 < nth (i + k) shape 0).
Proof.
  induction rest as [|ind tl IH]; intros i; cbn [TensorData.check_bounds].
  - left. split; [reflexivity|]. intros k Hk. simpl in Hk. lia.
  - destruct (Z.geb_spec ind (nth i shape 0)) as [G|L].
    + right. split; [reflexivity|]. exists 0%nat.
      rewrite Nat.add_0_r. cbn [nth length]. split; lia.
    + destruct (Z.ltb_spec ind 0) as [N|P].
      * right. split; [reflexivity|]. exists 0%nat.
        rewrite Nat.add_0_r. cbn [nth length]. split; lia.
      * destruct (IH (S i)) as [[E H]|[E (k & Hk & H)]].
        -- left. split; [exact E|]. intros [|k] Hk.
           ++ rewrite Nat.add_0_r. cbn [nth]. lia.
           ++ replace (i + S k)%nat with (S i + k)%nat by lia.
              apply H. simpl in Hk. lia.
        -- right. split; [exact E|]. exists (S k).
           replace (i + S k)%nat with (S i + k)%nat by lia.
           split; [simpl; lia | exact H].
Qed.

(** X16.  On a tensor whose strides have the length of its shape and fit
    an [int64], [index] of a sequence of entries that fit an [int64] returns
    a position exactly for the coordinates within the bounds of the shape,
    and that position is the dot product of coordinate and strides whenever
    the dot product fits an [int64]; for any other sequence (wrong length,
    an entry negative or not below its dimension) it raises an
    [IndexingError]. *)
Theorem index_in_bounds_or_IndexingError (t : TensorData.t) (index : list Z) :
  length (TensorData._strides t) = length (TensorData.shape t) ->
  Forall is_int64 (TensorData._strides t) ->
  Forall is_int64 index ->
  (in_bounds index (TensorData.shape t) /\
   exists p,
     TensorData.index t (IndexSeq index) = Ok p /\
     (is_int64 (dot index (TensorData._strides t)) ->
      p = dot index (TensorData._strides t)))
  \/
  (~ in_bounds index (TensorData.shape t) /\
   is_IndexingError (TensorData.index t (IndexSeq index)) = true).
Proof.
  intros Hlen _ _. unfold TensorData.index. cbv zeta.
  destruct (Nat.eqb_spec (length index) (length (TensorData.shape t)))
    as [E|NE]; cbn [negb].
  - destruct (check_bounds_cases index (TensorData.shape t) index 0)
      as [[Hc H]|[Hc (k & Hk & H)]].
    + left. split; [apply in_bounds_of_nth; [exact E|]; intros k Hk; apply H; lia|].
      exists (dot index (TensorData._strides t)). split; [|reflexivity].
      rewrite Hc. cbn [bind array]. unfold index_to_position.
      cbn [py_len bind]. rewrite E, Hlen, Nat.eqb_refl. reflexivity.
    + right. split.
      * intros Hb. apply H. apply in_bounds_nth; [exact Hb | simpl; lia].
      * destruct (TensorData.check_bounds _ _ _ _) as [u|e];
          [discriminate | exact Hc].
  - right. split; [| reflexivity].
    intros Hb. apply NE, in_bounds_length, Hb.
Qed.

Lemma index_in_bounds_or_IndexingError_witness :
  (in_bounds [1; 2] [2; 3] /\
   exists p,
     TensorData.index example_tensor (IndexSeq [1; 2]) = Ok p /\
     (is_int64 (dot [1; 2] [3; 1]) -> p = dot [1; 2] [3; 1]))
  \/
  (~ in_bounds [1; 2] [2; 3] /\
   is_IndexingError (TensorData.index example_tensor (IndexSeq [1; 2])) = true).
Proof.
  apply (index_in_bounds_or_IndexingError example_tensor [1; 2]).
  - reflexivity.
  - repeat constructor; unfold is_int64; cbn; lia.
  - repeat constructor; unfold is_int64; cbn; lia.
Defined.

(** ** [get] and [set] *)

Lemma np_position_in_range (len : nat) (pos : Z) :
  0 <= pos < Z.of_nat len -> np_position len pos = Ok (Z.to_nat pos).
Proof.
  intros H. unfold np_position.
  destruct (Z.leb_spec 0 pos), (Z.ltb_spec pos (Z.of_nat len)); try lia.
  reflexivity.
Qed.

Lemma nth_list_update_other {A : Type} (l : list A) (i j : nat) (v d : A) :
  i <> j -> nth j (list_update l i v) d = nth j l d.
Proof.
  revert i j; induction l as [|x l IH]; intros [|i] [|j] H; simpl;
    try reflexivity; try lia.
  apply IH. lia.
Qed.

Lemma heap_write_lengths (h h' : heap) (l : loc) (pos : Z) (v : float) :
  heap_write h l pos v = Ok h' ->
  forall l', length (cells h' l') = length (cells h l').
Proof.
  unfold heap_write.
  destruct (np_position _ _) as [i|e]; cbn [bind]; [|discriminate].
  intros E l'. injection E as <-. cbn [cells].
  destruct (Nat.eqb_spec l' l) as [->|]; [apply list_update_length | reflexivity].
Qed.

Lemma heap_write_other_buffer (h h' : heap) (l l' : loc) (pos : Z) (v : float) :
  heap_write h l pos v = Ok h' -> l' <> l -> cells h' l' = cells h l'.
Proof.
  unfold heap_write.
  destruct (np_position _ _) as [i|e]; cbn [bind]; [|discriminate].
  intros E Hl. injection E as <-. cbn [cells].
  destruct (Nat.eqb_spec l' l); [contradiction | reflexivity].
Qed.

(** The position of a coordinate within bounds under the contiguous
    strides is below the product of the shape. *)
Lemma contiguous_position_range (index shape : list Z) :
  in_bounds index shape ->
  0 <= dot index (strides_from_shape shape) < prod shape.
Proof.
  intros Hb. rewrite dot_contiguous by apply (in_bounds_length _ _ Hb).
  rewrite <- prod_rev. apply ravel_range, in_bounds_rev, Hb.
Qed.

Lemma contiguous_position_inj (i j shape : list Z) :
  in_bounds i shape -> in_bounds j shape ->
  dot i (strides_from_shape shape) = dot j (strides_from_shape shape) -> i = j.
Proof.
  intros Hi Hj E.
  rewrite !dot_contiguous in E
    by (apply in_bounds_length; assumption).
  apply in_bounds_rev in Hi, Hj.
  rewrite <- (rev_involutive i), <- (rev_involutive j).
  rewrite <- (unravel_ravel _ _ Hi), <- (unravel_ravel _ _ Hj), E.
  reflexivity.
Qed.

(** X17.  On a tensor with the contiguous strides of its shape, in a heap
    where it has the invariants of its constructor, [get] and [set] at a
    coordinate within bounds never fail, and [set] keeps the invariants. *)
Theorem contiguous_get_set_succeed
  (t : TensorData.t) (index : list Z) (val : float) (h : heap) :
  TensorData.wf t h ->
  TensorData.strides t = strides_from_shape (TensorData.shape t) ->
  in_bounds index (TensorData.shape t) ->
  (exists v, TensorData.get t (IndexSeq index) h = Ok v) /\
  (exists h', TensorData.set t (IndexSeq index) val h = Ok h' /\
              TensorData.wf t h').
Proof.
  intros Hwf Hc Hb.
  pose proof Hwf as (Hs & Hsh & Hlen & Hdims & Hsize & Hbuf).
  pose proof (contiguous_position_range _ _ Hb) as Hr.
  rewrite <- Hc, <- Hsize, <- Hbuf in Hr.
  unfold TensorData.get, TensorData.set.
  rewrite (index_ok t index Hs Hlen Hb). cbn [bind]. split.
  - unfold heap_read. rewrite np_position_in_range by exact Hr.
    cbn [bind]. eexists. reflexivity.
  - destruct (heap_write_ok h (TensorData._storage t) _ val Hr) as [h' E].
    exists h'. split; [exact E|].
    unfold TensorData.wf. rewrite (heap_write_lengths _ _ _ _ _ E).
    repeat split; assumption.
Qed.

Lemma contiguous_get_set_succeed_witness :
  (exists v, TensorData.get example_tensor (IndexSeq [1; 2]) example_heap = Ok v) /\
  (exists h', TensorData.set example_tensor (IndexSeq [1; 2]) 9%float example_heap
              = Ok h' /\
              TensorData.wf example_tensor h').
Proof.
  apply (contiguous_get_set_succeed example_tensor [1; 2] 9%float example_heap).
  - unfold TensorData.wf. cbn. repeat split; reflexivity.
  - reflexivity.
  - constructor; [lia | constructor; [lia | constructor]].
Defined.

(** X18.  What [set] stores under a key is what [get] returns for that
    key afterwards, whatever the strides of the tensor. *)
Theorem get_after_set
  (t : TensorData.t) (key : user_index) (val : float) (h h' : heap) :
  TensorData.set t key val h = Ok h' ->
  TensorData.get t key h' = Ok val.
Proof.
  unfold TensorData.set, TensorData.get.
  destruct (TensorData.index t key) as [pos|e]; cbn [bind]; [|discriminate].
  apply heap_read_write.
Qed.

Lemma get_after_set_witness :
  TensorData.get example_tensor (IndexSeq [0; 1])
    (mkHeap (fun l' => if Nat.eqb l' 0
                       then [1; 9; 3; 4; 5; 6]%float
                       else cells example_heap l')
            (next_loc example_heap))
  = Ok 9%float.
Proof.
  apply (get_after_set example_tensor (IndexSeq [0; 1]) 9%float example_heap).
  reflexivity.
Defined.

(** X19.  On a tensor with the contiguous strides of its shape, a [set] at
    one coordinate leaves what [get] returns at every other coordinate
    within bounds as it was. *)
Theorem set_keeps_other_coordinates
  (t : TensorData.t) (i j : list Z) (val : float) (h h' : heap) :
  TensorData.wf t h ->
  TensorData.strides t = strides_from_shape (TensorData.shape t) ->
  in_bounds i (TensorData.shape t) ->
  in_bounds j (TensorData.shape t) ->
  i <> j ->
  TensorData.set t (IndexSeq i) val h = Ok h' ->
  TensorData.get t (IndexSeq j) h' = TensorData.get t (IndexSeq j) h.
Proof.
  intros Hwf Hc Hi Hj Hij Hset.
  pose proof Hwf as (Hs & Hsh & Hlen & Hdims & Hsize & Hbuf).
  pose proof (contiguous_position_range _ _ Hi) as Hri.
  pose proof (contiguous_position_range _ _ Hj) as Hrj.
  rewrite <- Hc, <- Hsize, <- Hbuf in Hri, Hrj.
  assert (Hne : dot i (TensorData.strides t) <> dot j (TensorData.strides t)).
  { rewrite Hc. intros E. apply Hij.
    eapply contiguous_position_inj; eauto. }
  unfold TensorData.get, TensorData.set in *.
  rewrite (index_ok t i Hs Hlen Hi) in Hset.
  rewrite (index_ok t j Hs Hlen Hj). cbn [bind] in *.
  unfold heap_read.
  rewrite (heap_write_lengths _ _ _ _ _ Hset).
  rewrite np_position_in_range by exact Hrj. cbn [bind]. f_equal.
  unfold heap_write in Hset.
  rewrite np_position_in_range in Hset by exact Hri. cbn [bind] in Hset.
  injection Hset as <-. cbn [cells]. rewrite Nat.eqb_refl.
  apply nth_list_update_other. lia.
Qed.

Lemma set_keeps_other_coordinates_witness :
  TensorData.get example_tensor (IndexSeq [1; 2])
    (mkHeap (fun l' => if Nat.eqb l' 0
                       then [1; 9; 3; 4; 5; 6]%float
                       else cells example_heap l')
            (next_loc example_heap))
  = TensorData.get example_tensor (IndexSeq [1; 2]) example_heap.
Proof.
  apply (set_keeps_other_coordinates example_tensor [0; 1] [1; 2] 9%float).
  - unfold TensorData.wf. cbn. repeat split; reflexivity.
  - reflexivity.
  - constructor; [lia | constructor; [lia | constructor]].
  - constructor; [lia | constructor; [lia | constructor]].
  - discriminate.
  - reflexivity.
Defined.

(** X20.  A [set] through one tensor changes the buffer of that tensor
    only: every tensor, whatever its buffer, keeps the invariants of its
    constructor, and a tensor over another buffer reads what it read
    before. *)
Theorem set_frame
  (t t2 : TensorData.t) (key key2 : user_index) (val : float) (h h' : heap) :
  TensorData.set t key val h = Ok h' ->
  (TensorData.wf t2 h -> TensorData.wf t2 h') /\
  (TensorData._storage t2 <> TensorData._storage t ->
   TensorData.get t2 key2 h' = TensorData.get t2 key2 h).
Proof.
  unfold TensorData.set.
  destruct (TensorData.index t key) as [pos|e]; cbn [bind]; [|discriminate].
  intros E. split.
  - unfold TensorData.wf. rewrite (heap_write_lengths _ _ _ _ _ E). tauto.
  - intros Hl. unfold TensorData.get, heap_read.
    rewrite (heap_write_other_buffer _ _ _ _ _ _ E Hl). reflexivity.
Qed.

Lemma set_frame_witness :
  TensorData.wf example_vector_two
    (mkHeap (fun l' => if Nat.eqb l' 0
                       then [1; 9; 3; 4; 5; 6]%float
                       else cells example_heap_two l')
            (next_loc example_heap_two)) /\
  TensorData.get example_vector_two (IndexSeq [1])
    (mkHeap (fun l' => if Nat.eqb l' 0
                       then [1; 9; 3; 4; 5; 6]%float
                       else cells example_heap_two l')
            (next_loc example_heap_two))
  = Ok 8%float.
Proof.
  destruct (set_frame example_tensor example_vector_two
              (IndexSeq [0; 1]) (IndexSeq [1]) 9%float example_heap_two
              (mkHeap (fun l' => if Nat.eqb l' 0
                                 then [1; 9; 3; 4; 5; 6]%float
                                 else cells example_heap_two l')
                      (next_loc example_heap_two)))
    as [Hwf Hget].
  - reflexivity.
  - split.
    + apply Hwf. unfold TensorData.wf. cbn. repeat split; reflexivity.
    + rewrite Hget; [reflexivity | discriminate].
Defined.

(** ** [permute] *)

Lemma insert_sorted_Sorted (x : Z) (l : list Z) :
  Sorted Z.le l -> Sorted Z.le (insert_sorted x l).
Proof.
  induction l as [|y tl IH]; intros H; cbn [insert_sorted].
  - repeat constructor.
  - destruct (Z.leb_spec x y) as [L|G].
    + constructor; [exact H | constructor; exact L].
    + apply Sorted_inv in H. destruct H as [Htl Hhd].
      constructor; [apply IH, Htl|].
      destruct tl as [|z tl']; cbn [insert_sorted].
      * constructor. lia.
      * apply HdRel_inv in Hhd.
        destruct (x <=? z); constructor; lia.
Qed.

Lemma sorted_Sorted (l : list Z) : Sorted Z.le (sorted l).
Proof.
  unfold sorted. induction l as [|x l IH]; cbn [fold_right];
    [constructor | apply insert_sorted_Sorted, IH].
Qed.

Lemma Sorted_le_Forall (x : Z) (l : list Z) :
  Sorted Z.le (x :: l) -> Forall (Z.le x) l.
Proof.
  apply Sorted_extends. intros a b c. apply Z.le_trans.
Qed.

Lemma Sorted_perm_unique (a : list Z) :
  forall b, Sorted Z.le a -> Sorted Z.le b -> Permutation a b -> a = b.
Proof.
  induction a as [|x a IH]; intros b Ha Hb HP.
  - apply Permutation_nil in HP. congruence.
  - destruct b as [|y b];
      [apply Permutation_sym, Permutation_nil in HP; discriminate|].
    pose proof (Sorted_le_Forall _ _ Ha) as Fa.
    pose proof (Sorted_le_Forall _ _ Hb) as Fb.
    rewrite Forall_forall in Fa, Fb.
    assert (x = y).
    { assert (Hy : In y (x :: a))
        by (apply (Permutation_in _ (Permutation_sym HP)); left; reflexivity).
      assert (Hx : In x (y :: b))
        by (apply (Permutation_in _ HP); left; reflexivity).
      destruct Hy as [->|Hy]; [reflexivity|].
      destruct Hx as [->|Hx]; [reflexivity|].
      specialize (Fa _ Hy). specialize (Fb _ Hx). lia. }
    subst y. f_equal. apply IH.
    + apply Sorted_inv in Ha. tauto.
    + apply Sorted_inv in Hb. tauto.
    + eapply Permutation_cons_inv, HP.
Qed.

Lemma seq_Sorted (start len : nat) : Sorted Z.le (map Z.of_nat (seq start len)).
Proof.
  revert start; induction len as [|len IH]; intros start; cbn [seq map].
  - constructor.
  - constructor; [apply IH|].
    destruct len; cbn [seq map]; constructor. lia.
Qed.

Lemma is_permutation_iff (n : nat) (order : list Z) :
  is_permutation n order = true <-> Permutation order (range (Z.of_nat n)).
Proof.
  split; [apply is_permutation_perm|]. intros HP.
  unfold is_permutation. apply list_eqb_eq.
  apply Sorted_perm_unique.
  - apply sorted_Sorted.
  - apply seq_Sorted.
  - rewrite sorted_perm. exact HP.
Qed.

(** X21.  On a tensor with the invariants of its constructor, [permute]
    succeeds exactly when [order] is a permutation of the dimensions
    [0 .. dims-1], and fails its assertion otherwise; on success the heap is
    as it was, the view has the invariants, the size and the number of
    dimensions of the tensor, and its shape is a rearrangement of the
    shape. *)
Theorem permute_succeeds_iff_permutation
  (t : TensorData.t) (order : list Z) (h : heap) :
  TensorData.wf t h ->
  (Permutation order (range (Z.of_nat (length (TensorData.shape t)))) ->
   exists pt,
     TensorData.permute t order h = Ok (pt, h) /\
     TensorData.wf pt h /\
     TensorData.size pt = TensorData.size t /\
     TensorData.dims pt = TensorData.dims t /\
     Permutation (TensorData.shape pt) (TensorData.shape t)) /\
  (~ Permutation order (range (Z.of_nat (length (TensorData.shape t)))) ->
   TensorData.permute t order h = Raise AssertionError).
Proof.
  intros Hwf. split.
  - intros HP. pose proof HP as Hperm. apply is_permutation_iff in Hperm.
    destruct (permute_ok t order h Hwf Hperm)
      as (pt & E & Hsto & Hshp & Hstr & Hwfpt).
    exists pt. split; [exact E | split; [exact Hwfpt|]].
    pose proof Hwf as (_ & _ & Hlen & Hdims & Hsize & _).
    pose proof Hwfpt as (_ & _ & Hlen' & Hdims' & Hsize' & _).
    assert (HPs : Permutation (TensorData.shape pt) (TensorData.shape t))
      by (rewrite Hshp; apply permute_index_perm, HP).
    split; [| split; [| exact HPs]].
    + rewrite Hsize', Hsize. apply prod_Permutation, HPs.
    + rewrite Hdims', Hdims, Hlen', Hlen. apply Permutation_length, HPs.
  - intros HN. unfold TensorData.permute.
    fold (is_permutation (length (TensorData.shape t)) order).
    destruct (is_permutation _ _) eqn:E; [|reflexivity].
    exfalso. apply HN, is_permutation_iff, E.
Qed.

Lemma permute_succeeds_iff_permutation_witness :
  (Permutation [1; 0] (range (Z.of_nat (length [2; 3]))) ->
   exists pt,
     TensorData.permute example_tensor [1; 0] example_heap = Ok (pt, example_heap) /\
     TensorData.wf pt example_heap /\
     TensorData.size pt = 6 /\
     TensorData.dims pt = 2%nat /\
     Permutation (TensorData.shape pt) [2; 3]) /\
  (~ Permutation [1; 0] (range (Z.of_nat (length [2; 3]))) ->
   TensorData.permute example_tensor [1; 0] example_heap = Raise AssertionError).
Proof.
  apply (permute_succeeds_iff_permutation example_tensor [1; 0] example_heap).
  unfold TensorData.wf. cbn. repeat split; reflexivity.
Defined.

(** X22.  [permute] with the dimensions in their own order returns the
    tensor itself. *)
Theorem permute_identity (t : TensorData.t) (h : heap) :
  TensorData.permute t (range (Z.of_nat (length (TensorData.shape t)))) h
  = Ok (t, h).
Proof.
  unfold TensorData.permute.
  fold (is_permutation (length (TensorData.shape t))
          (range (Z.of_nat (length (TensorData.shape t))))).
  rewrite (proj2 (is_permutation_iff _ _)) by reflexivity.
  cbn [negb].
  rewrite (proj2 (list_eqb_eq _ _)) by reflexivity. reflexivity.
Qed.

Lemma permuted_position (t pt : TensorData.t) (order index : list Z) (h : heap) :
  TensorData.wf t h ->
  is_permutation (length (TensorData.shape t)) order = true ->
  TensorData.permute t order h = Ok (pt, h) ->
  in_bounds index (TensorData.shape t) ->
  TensorData.index pt (IndexSeq (permute_index order index))
  = TensorData.index t (IndexSeq index).
Proof.
  intros Hwf Hperm E Hb.
  pose proof Hwf as (Hs & _ & Hlen & _).
  pose proof (is_permutation_perm _ _ Hperm) as HP.
  destruct (permute_ok t order h Hwf Hperm)
    as (pt' & E' & Hsto & Hshp & Hstr & Hwfpt).
  rewrite E in E'. injection E' as <-.
  pose proof Hwfpt as (Hs' & _ & Hlen' & _).
  rewrite (index_ok pt), (index_ok t); try assumption.
  - rewrite Hstr, dot_permute; [reflexivity | |].
    + rewrite (in_bounds_length _ _ Hb). congruence.
    + rewrite (in_bounds_length _ _ Hb). exact HP.
  - rewrite Hshp. apply in_bounds_permute; assumption.
Qed.

(** X23.  A permuted view reads the entries of the tensor it was made
    from: [get] through the view at the permuted coordinate is [get] through
    the tensor at the coordinate, in every heap. *)
Theorem get_through_permuted_view
  (t pt : TensorData.t) (order index : list Z) (h h0 : heap) :
  TensorData.wf t h ->
  TensorData.permute t order h = Ok (pt, h) ->
  in_bounds index (TensorData.shape t) ->
  TensorData.get pt (IndexSeq (permute_index order index)) h0
  = TensorData.get t (IndexSeq index) h0.
Proof.
  intros Hwf E Hb.
  assert (Hperm : is_permutation (length (TensorData.shape t)) order = true).
  { unfold TensorData.permute in E.
    fold (is_permutation (length (TensorData.shape t)) order) in E.
    destruct (is_permutation _ _); [reflexivity | discriminate]. }
  destruct (permute_ok t order h Hwf Hperm) as (pt' & E' & Hsto & _).
  rewrite E in E'. injection E' as <-.
  unfold TensorData.get.
  rewrite (permuted_position t pt order index h Hwf Hperm E Hb), Hsto.
  reflexivity.
Qed.

Lemma get_through_permuted_view_witness :
  TensorData.get (TensorData.mk 0%nat [1; 3] [3; 2] [1; 3] 2%nat 6 [3; 2])
    (IndexSeq (permute_index [1; 0] [1; 2])) example_heap
  = TensorData.get example_tensor (IndexSeq [1; 2]) example_heap.
Proof.
  apply (get_through_permuted_view example_tensor _ [1; 0] [1; 2] example_heap).
  - unfold TensorData.wf. cbn. repeat split; reflexivity.
  - reflexivity.
  - constructor; [lia | constructor; [lia | constructor]].
Defined.

(** ** [indices] *)

Lemma prod_zero (shape : list Z) : In 0 shape -> prod shape = 0.
Proof.
  induction shape as [|s r IH]; intros H; [contradiction|].
  change (prod (s :: r)) with (s * prod r).
  destruct H as [->|H]; [reflexivity | rewrite IH by exact H; lia].
Qed.

(** X24.  For a tensor whose shape has positive dimensions, [indices()]
    yields every coordinate within the bounds of the shape exactly once:
    as many coordinates as the size, none of them twice, and a tuple is
    among them exactly when it is within bounds. *)
Theorem indices_enumerates_coordinates (t : TensorData.t) :
  all_positive (TensorData.shape t) ->
  TensorData.size t = prod (TensorData.shape t) ->
  exists coords,
    TensorData.indices t = Ok coords /\
    Z.of_nat (length coords) = TensorData.size t /\
    NoDup coords /\
    (forall c, In c coords <-> in_bounds c (TensorData.shape t)).
Proof.
  intros Hpos Hsize.
  exists (map (fun o => to_index_spec o (TensorData.shape t))
              (range (prod (TensorData.shape t)))).
  split; [| split; [| split]].
  - unfold TensorData.indices. rewrite Hsize. apply indices_loop_ok; auto.
  - rewrite Hsize, length_map. unfold range. rewrite length_map, length_seq.
    pose proof (prod_pos _ Hpos). lia.
  - apply NoDup_map_NoDup_ForallPairs; [| apply range_NoDup].
    intros o1 o2 H1 H2 E. apply range_spec in H1, H2.
    eapply to_index_spec_inj; eauto.
  - intros c. rewrite in_map_iff. split.
    + intros (o & <- & _). apply to_index_spec_in_bounds, Hpos.
    + intros Hb. destruct (to_index_spec_surj _ _ Hb) as [Hr Hs].
      exists (ravel (rev (TensorData.shape t)) (rev c)).
      split; [exact Hs | apply range_spec, Hr].
Qed.

Lemma indices_enumerates_coordinates_witness :
  exists coords,
    TensorData.indices example_tensor = Ok coords /\
    Z.of_nat (length coords) = 6 /\
    NoDup coords /\
    (forall c, In c coords <-> in_bounds c [2; 3]).
Proof.
  apply (indices_enumerates_coordinates example_tensor).
  - repeat constructor.
  - reflexivity.
Defined.

(** X25.  The degenerate shapes: a tensor with a dimension of size 0 has
    size 0 and [indices()] yields nothing; a tensor without dimensions has
    size 1 and [indices()] yields the empty tuple once. *)
Theorem indices_degenerate_shapes (t : TensorData.t) :
  TensorData.size t = prod (TensorData.shape t) ->
  (In 0 (TensorData.shape t) ->
   TensorData.size t = 0 /\ TensorData.indices t = Ok []) /\
  (TensorData.shape t = [] ->
   TensorData.size t = 1 /\ TensorData.indices t = Ok [[]]).
Proof.
  intros Hsize. unfold TensorData.indices. split; intros H.
  - rewrite Hsize, (prod_zero _ H). split; reflexivity.
  - rewrite Hsize, H. split; reflexivity.
Qed.

Lemma indices_degenerate_shapes_witness :
  (In 0 [] -> 1 = 0 /\ TensorData.indices example_scalar = Ok []) /\
  ([] = @nil Z -> 1 = 1 /\ TensorData.indices example_scalar = Ok [[]]).
Proof.
  apply (indices_degenerate_shapes example_scalar). reflexivity.
Defined.

(** * Further properties of the scalar functions *)

Section ScalarFunctionProtocol.

Variable ops : operators.t.

Lemma forward_arity (cls : ScalarFunction) (ctx : Context) (inps : list pyval) :
  length inps <> arity cls -> forward ops cls ctx inps = Raise TypeError.
Proof.
  intros H.
  destruct cls; destruct inps as [|a [|b [|c rest]]]; cbn in H;
    try reflexivity; lia.
Qed.

Lemma forward_ok_arity (cls : ScalarFunction) (ctx ctx' : Context)
  (inps : list pyval) (c : pyval) :
  forward ops cls ctx inps = Ok (ctx', c) -> length inps = arity cls.
Proof.
  intros H. destruct (Nat.eq_dec (length inps) (arity cls)) as [E|NE];
    [exact E|].
  rewrite forward_arity in H by exact NE. discriminate.
Qed.

Ltac step_bind H :=
  match type of H with
  | context [bind ?r _] =>
      let E := fresh "E" in
      destruct r eqn:E; cbn [bind] in H; try discriminate
  end.

(** X26.  A backward computation returns one gradient per input of the
    forward computation: when [forward] of a class succeeds on some inputs
    and [_backward] of the class succeeds on the context [forward] left, the
    tuple it returns has as many entries as there were inputs. *)
Theorem backward_one_gradient_per_input
  (cls : ScalarFunction) (ctx ctx' : Context) (inps grads : list pyval)
  (c d_output : pyval) :
  forward ops cls ctx inps = Ok (ctx', c) ->
  _backward ops cls ctx' d_output = Ok grads ->
  length grads = length inps.
Proof.
  intros Hf Hb. rewrite (forward_ok_arity _ _ _ _ _ Hf).
  unfold _backward in Hb. step_bind Hb. injection Hb as <-.
  destruct cls; cbn [backward] in E;
    repeat step_bind E; try (injection E as <-; reflexivity).
  (* Mul unpacks two saved values *)
  destruct (saved_values ctx') as [|sa [|sb [|sx rest]]]; try discriminate.
  repeat step_bind E. injection E as <-. reflexivity.
Qed.

Lemma collect_scalars (vals : list ScalarLike) :
  forall raw scalars raw' scalars',
    collect vals raw scalars = Ok (raw', scalars') ->
    exists promoted,
      scalars' = scalars ++ promoted /\ Forall2 recorded_input vals promoted.
Proof.
  induction vals as [|v vals IH]; intros raw scalars raw' scalars' H;
    cbn [collect] in H.
  - injection H as _ <-. exists []. split; [symmetry; apply app_nil_r | constructor].
  - destruct v as [s|n].
    + destruct (IH _ _ _ _ H) as (p & -> & HF).
      exists (s :: p). rewrite <- app_assoc. split; [reflexivity|].
      constructor; [reflexivity | exact HF].
    + unfold Scalar_init in H. destruct (py_float n) as [d|e] eqn:E;
        cbn [bind] in H; [|discriminate].
      destruct (IH _ _ _ _ H) as (p & -> & HF).
      exists (MkScalar d None :: p). rewrite <- app_assoc.
      split; [reflexivity|].
      constructor; [exists d; split; [exact E | reflexivity] | exact HF].
Qed.

(** X27.  What [apply] returns is never a leaf: its history names the
    class, and its inputs are the arguments in their order, one per
    argument, a [Scalar] argument itself and a bare number as a leaf
    holding [float] of it; the number of arguments is the number of inputs
    of the class. *)
Theorem apply_records_history
  (cls : ScalarFunction) (vals : list ScalarLike) (s : Scalar) :
  apply ops cls vals = Ok s ->
  exists ctx inputs,
    history s = Some (MkScalarHistory cls ctx inputs) /\
    Forall2 recorded_input vals inputs /\
    length vals = arity cls.
Proof.
  unfold apply. intros H.
  destruct (collect vals [] []) as [[raw scalars]|e] eqn:Ec;
    cbn [bind fst snd] in H; [|discriminate].
  unfold _forward in H.
  destruct (forward ops cls _ raw) as [[ctx c]|e] eqn:Ef;
    cbn [bind fst snd] in H; [|discriminate].
  destruct (is_float c); [|discriminate].
  unfold Scalar_init in H. destruct (py_float c); cbn [bind] in H;
    [|discriminate].
  injection H as <-.
  destruct (collect_scalars _ _ _ _ _ Ec) as (p & -> & HF).
  exists ctx, p. cbn [history app]. split; [reflexivity | split; [exact HF|]].
  pose proof (collect_raw _ _ _ _ _ Ec) as Hraw. cbn [app] in Hraw.
  rewrite <- (forward_ok_arity _ _ _ _ _ Ef), Hraw, length_map. reflexivity.
Qed.

(** X28.  [apply] with a number of arguments that is not the number of
    inputs of the class raises a [TypeError], once the arguments have been
    collected. *)
Theorem apply_wrong_number_of_arguments
  (cls : ScalarFunction) (vals : list ScalarLike)
  (raw : list pyval) (scalars : list Scalar) :
  collect vals [] [] = Ok (raw, scalars) ->
  length vals <> arity cls ->
  apply ops cls vals = Raise TypeError.
Proof.
  intros Ec Hn. unfold apply. rewrite Ec. cbn [bind fst snd].
  unfold _forward. rewrite forward_arity; [reflexivity|].
  pose proof (collect_raw _ _ _ _ _ Ec) as Hraw. cbn [app] in Hraw.
  rewrite Hraw, length_map. exact Hn.
Qed.

(** X29.  [Add.apply] on two [Scalar]s never fails: it returns a [Scalar]
    holding the float sum of their payloads, with a history of [Add], a
    context without saved values and the two operands in their order. *)
Theorem Add_apply_on_scalars (x y : Scalar) :
  apply ops Add [OfScalar x; OfScalar y]
  = Ok (MkScalar (data x + data y)%float
          (Some (MkScalarHistory Add (mkContext false []) [x; y]))).
Proof. reflexivity. Qed.

(** X30.  The context [Mul.apply] records for two [Scalar]s holds both
    payloads, and the backward computation on it returns, for the first
    operand, the payload of the second times the incoming gradient and, for
    the second operand, the payload of the first times it. *)
Theorem Mul_apply_then_backward (x y s : Scalar) (d_output : float) :
  apply ops Mul [OfScalar x; OfScalar y] = Ok s ->
  exists ctx,
    history s = Some (MkScalarHistory Mul ctx [x; y]) /\
    saved_values ctx = [PyFloat (data x); PyFloat (data y)] /\
    _backward ops Mul ctx (PyFloat d_output)
    = Ok [PyFloat (data y * d_output)%float; PyFloat (data x * d_output)%float].
Proof.
  unfold apply. cbn [collect app bind fst snd]. unfold _forward.
  cbn [forward]. intros H.
  destruct (operators.mul ops _ _) as [c|e]; cbn [bind fst snd] in H;
    [|discriminate].
  destruct (is_float c); [|discriminate].
  unfold Scalar_init in H. destruct (py_float c); cbn [bind] in H;
    [|discriminate].
  injection H as <-. eexists. cbn [history]. split; [reflexivity|].
  split; reflexivity.
Qed.

End ScalarFunctionProtocol.

Lemma backward_one_gradient_per_input_witness :
  length [PyFloat 1%float; PyFloat 1%float]
  = length [PyFloat 1%float; PyFloat 2%float].
Proof.
  apply (backward_one_gradient_per_input example_operators Add
           (mkContext false []) (mkContext false [])
           [PyFloat 1%float; PyFloat 2%float]
           [PyFloat 1%float; PyFloat 1%float]
           (PyFloat 3%float) (PyFloat 1%float)); reflexivity.
Defined.

Lemma apply_records_history_witness :
  exists ctx inputs,
    history (MkScalar 3%float
               (Some (MkScalarHistory Add (mkContext false [])
                        [MkScalar 1%float None; MkScalar 2%float None])))
    = Some (MkScalarHistory Add ctx inputs) /\
    Forall2 recorded_input
      [OfNumber (PyInt 1); OfScalar (MkScalar 2%float None)] inputs /\
    length [OfNumber (PyInt 1); OfScalar (MkScalar 2%float None)] = arity Add.
Proof.
  apply (apply_records_history example_operators Add
           [OfNumber (PyInt 1); OfScalar (MkScalar 2%float None)]).
  reflexivity.
Defined.

Lemma apply_wrong_number_of_arguments_witness :
  apply example_operators Add [OfScalar (MkScalar 1%float None)]
  = Raise TypeError.
Proof.
  apply (apply_wrong_number_of_arguments example_operators Add
           [OfScalar (MkScalar 1%float None)]
           [PyFloat 1%float] [MkScalar 1%float None]).
  - reflexivity.
  - cbn. lia.
Defined.

Lemma Mul_apply_then_backward_witness :
  exists ctx,
    history (MkScalar 6%float
               (Some (MkScalarHistory Mul
                        (mkContext false [PyFloat 2%float; PyFloat 3%float])
                        [MkScalar 2%float None; MkScalar 3%float None])))
    = Some (MkScalarHistory Mul ctx
              [MkScalar 2%float None; MkScalar 3%float None]) /\
    saved_values ctx = [PyFloat 2%float; PyFloat 3%float] /\
    _backward example_operators Mul ctx (PyFloat 1%float)
    = Ok [PyFloat (3 * 1)%float; PyFloat (2 * 1)%float].
Proof.
  apply (Mul_apply_then_backward example_operators
           (MkScalar 2%float None) (MkScalar 3%float None)).
  reflexivity.
Defined.
